(** * web_crawler.py: the crawl loop, the page processor and the image downloader

    A shallow embedding of [WebCrawler] (src/web_crawler.py).  The crawler
    object, the files it writes and the requests it issues are one record
    that every method takes and returns; the outside world (HTTP answers,
    the clock, the file system, the thread scheduler) is a record of
    oracles indexed by the number of consultations made so far, so that
    the same URL may answer differently on two requests. *)

From Stdlib Require Import ZArith List Ascii String Lia.
From stdpp Require Import base decidable option list sets gmap strings pretty.
Import ListNotations.

#[local] Set Warnings "-register-all".

Local Open Scope string_scope.
Local Open Scope list_scope.
Local Open Scope Z_scope.

(** ** Python strings

    A [str] is kept as the Rocq string of its UTF-8 bytes, so that a
    character is one to four bytes.  White space is what [str.isspace]
    accepts and [str.strip] removes, a line boundary is what
    [str.splitlines] splits at; the ones of two and three bytes are given
    by their bytes. *)

(** White space of one byte: U+0009 to U+000D and U+001C to U+0020. *)
Definition py_isspace (ch : ascii) : bool :=
  let n := nat_of_ascii ch in
  ((9 <=? n)%nat && (n <=? 13)%nat) || ((28 <=? n)%nat && (n <=? 32)%nat).

(** White space of two bytes: U+0085 and U+00A0. *)
Definition py_isspace2 (a b : ascii) : bool :=
  (nat_of_ascii a =? 194)%nat
  && ((nat_of_ascii b =? 133)%nat || (nat_of_ascii b =? 160)%nat).

(** White space of three bytes: U+1680, U+2000 to U+200A, U+2028, U+2029,
    U+202F, U+205F and U+3000. *)
Definition py_isspace3 (a b c : ascii) : bool :=
  let n := nat_of_ascii c in
  ((nat_of_ascii a =? 225)%nat && (nat_of_ascii b =? 154)%nat
   && (n =? 128)%nat)
  || ((nat_of_ascii a =? 226)%nat && (nat_of_ascii b =? 128)%nat
      && (((128 <=? n)%nat && (n <=? 138)%nat)
          || (n =? 168)%nat || (n =? 169)%nat || (n =? 175)%nat))
  || ((nat_of_ascii a =? 226)%nat && (nat_of_ascii b =? 129)%nat
      && (n =? 159)%nat)
  || ((nat_of_ascii a =? 227)%nat && (nat_of_ascii b =? 128)%nat
      && (n =? 128)%nat).

(** Line boundaries of one byte: line feed, vertical tab, form feed,
    carriage return and U+001C to U+001E. *)
Definition is_line_boundary (ch : ascii) : bool :=
  let n := nat_of_ascii ch in
  ((10 <=? n)%nat && (n <=? 13)%nat) || ((28 <=? n)%nat && (n <=? 30)%nat).

(** The line boundary of two bytes: U+0085. *)
Definition is_line_boundary2 (a b : ascii) : bool :=
  (nat_of_ascii a =? 194)%nat && (nat_of_ascii b =? 133)%nat.

(** The line boundaries of three bytes: U+2028 and U+2029. *)
Definition is_line_boundary3 (a b c : ascii) : bool :=
  (nat_of_ascii a =? 226)%nat && (nat_of_ascii b =? 128)%nat
  && ((nat_of_ascii c =? 168)%nat || (nat_of_ascii c =? 169)%nat).

Definition is_cr (ch : ascii) : bool := (nat_of_ascii ch =? 13)%nat.
Definition is_lf (ch : ascii) : bool := (nat_of_ascii ch =? 10)%nat.

(** The white space at the head of [l] is dropped; with [back], [l] is a
    string read from its end, and so are the bytes of a character. *)
Fixpoint lstrip_chars (back : bool) (l : list ascii) : list ascii :=
  match l with
  | a :: l1 =>
      if py_isspace a then lstrip_chars back l1
      else
        match l1 with
        | b :: l2 =>
            if (if back then py_isspace2 b a else py_isspace2 a b)
            then lstrip_chars back l2
            else
              match l2 with
              | c :: l3 =>
                  if (if back then py_isspace3 c b a else py_isspace3 a b c)
                  then lstrip_chars back l3
                  else l
              | [] => l
              end
        | [] => l
        end
  | [] => []
  end.

(** [s.strip()] *)
Definition py_strip (s : string) : string :=
  string_of_list_ascii
    (rev (lstrip_chars true (rev (lstrip_chars false (list_ascii_of_string s))))).

(** [s.splitlines()]: [cur] is the line being read, last byte first;
    [after_cr] says that the previous character was a carriage return, whose
    line feed belongs to the same boundary. *)
Fixpoint splitlines_go (after_cr : bool) (cur : list ascii) (l : list ascii)
  : list string :=
  match l with
  | [] => match cur with
          | [] => []
          | _ => [string_of_list_ascii (rev cur)]
          end
  | a :: l1 =>
      if after_cr && is_lf a
      then splitlines_go false [] l1
      else if is_line_boundary a
      then string_of_list_ascii (rev cur) :: splitlines_go (is_cr a) [] l1
      else
        match l1 with
        | b :: l2 =>
            if is_line_boundary2 a b
            then string_of_list_ascii (rev cur) :: splitlines_go false [] l2
            else
              match l2 with
              | c :: l3 =>
                  if is_line_boundary3 a b c
                  then string_of_list_ascii (rev cur)
                       :: splitlines_go false [] l3
                  else splitlines_go false (a :: cur) l1
              | [] => splitlines_go false (a :: cur) l1
              end
        | [] => splitlines_go false (a :: cur) l1
        end
  end.

Definition py_splitlines (s : string) : list string :=
  splitlines_go false [] (list_ascii_of_string s).

(** [sep.join(parts)] *)
Fixpoint py_join (sep : string) (parts : list string) : string :=
  match parts with
  | [] => ""
  | [p] => p
  | p :: rest => p +:+ sep +:+ py_join sep rest
  end.

(** [s.startswith(p)] *)
Definition startswith (s p : string) : bool := String.prefix p s.

(** The ASCII letters of [s.lower()].  That is all the test of line 222
    needs: of the other characters, [str.lower] maps only U+212A to an
    ASCII letter, k, which no extension of the list contains, so a string
    with a byte above 127 is outside the list before and after. *)
Definition py_lower_char (ch : ascii) : ascii :=
  let n := nat_of_ascii ch in
  if ((65 <=? n)%nat && (n <=? 90)%nat) then ascii_of_nat (n + 32) else ch.

Fixpoint py_lower (s : string) : string :=
  match s with
  | EmptyString => EmptyString
  | String ch s' => String (py_lower_char ch) (py_lower s')
  end.

Definition LF : string := String (ascii_of_nat 10) EmptyString.

(** ** The parsed document

    What [BeautifulSoup(response.text, 'html.parser')] hands to the
    crawler: a forest of strings and tags, a tag carrying its attribute
    dictionary (an association list read at the first match) and its
    contents in document order.  A string has the class the parser gave
    it: [NavigableString] (or [CData]) for text, which [get_text] returns,
    and [Comment] (or [Declaration], [ProcessingInstruction]) and
    [Doctype], which [get_text] leaves out. *)

Inductive node : Type :=
| NavigableString (s : string)
| Comment (s : string)
| Doctype (s : string)
| Tag (name : string) (attrs : list (string * string)) (contents : list node).

Definition soup := list node.

Fixpoint attr_get (key : string) (attrs : list (string * string)) : option string :=
  match attrs with
  | [] => None
  | (k, v) :: rest => if bool_decide (k = key) then Some v else attr_get key rest
  end.

(** [node.extract()] for every tag named in [names]: the node and all it
    contains leave the tree. *)
Fixpoint extract_tags (names : list string) (n : node) : list node :=
  match n with
  | NavigableString _ | Comment _ | Doctype _ => [n]
  | Tag name attrs contents =>
      if bool_decide (name ∈ names) then []
      else [Tag name attrs (flat_map (extract_tags names) contents)]
  end.

(** The node and its descendants, in document order. *)
Fixpoint descendants (n : node) : list node :=
  n :: match n with
       | NavigableString _ | Comment _ | Doctype _ => []
       | Tag _ _ contents => flat_map descendants contents
       end.

Definition is_tag (name : string) (n : node) : bool :=
  match n with
  | Tag name' _ _ => bool_decide (name' = name)
  | NavigableString _ | Comment _ | Doctype _ => false
  end.

Definition node_attrs (n : node) : list (string * string) :=
  match n with
  | Tag _ attrs _ => attrs
  | NavigableString _ | Comment _ | Doctype _ => []
  end.

(** [soup.find_all(name)] *)
Definition find_all (name : string) (doc : soup) : list node :=
  List.filter (is_tag name) (flat_map descendants doc).

(** [soup.find_all(name, key=True)]: the tags that carry the attribute. *)
Definition find_all_with (name key : string) (doc : soup) : list node :=
  List.filter (fun n => bool_decide (is_Some (attr_get key (node_attrs n))))
              (find_all name doc).

(** The strings of [soup.get_text(separator, strip=True)]: every string
    of class [NavigableString], stripped, the empty ones left out. *)
Definition stripped_strings (doc : soup) : list string :=
  flat_map (fun n => match n with
                     | NavigableString s =>
                         let s' := py_strip s in
                         if bool_decide (s' = "") then [] else [s']
                     | Comment _ | Doctype _ | Tag _ _ _ => []
                     end)
           (flat_map descendants doc).

Definition get_text (separator : string) (doc : soup) : string :=
  py_join separator (stripped_strings doc).

(** ** The outside world

    Every answer the crawler gets from outside is read from an oracle at the
    current value of a counter that each consultation advances. *)

(** What the [try] block of [download_page] does with a URL: [session.get]
    or [raise_for_status] raises; the response is accepted and the parser
    raises; or the page is parsed. *)
Inductive fetch_result : Type :=
| FetchRaises
| ParseRaises
| Fetched (doc : soup).

(** What [session.get] followed by [raise_for_status] gives for an image
    URL: an exception, or a response with its [Content-Type] header (the
    empty string when the header is missing) and its body. *)
Inductive image_result : Type :=
| ImageRaises
| ImageResponse (content_type : string) (content : string).

(** What becomes of a [with open(filepath, mode) as f:] block: [open]
    raises and leaves no file; [open] has created (or emptied) the file and
    a later step of the block raises, when the file is left with the first
    [kept] bytes of what the block was to write; or the block runs to its
    end. *)
Inductive write_result : Type :=
| OpenRaises
| WriteRaises (kept : nat)
| Written.

Record world : Type := {
  page_get : nat -> string -> fetch_result;
  image_get : nat -> string -> image_result;
  (** the fate of the next [with open(...)] block *)
  file_write : nat -> write_result;
  (** [int(time.time())] *)
  now : nat -> Z;
  (** the order in which the pool threads of one page take their turns *)
  schedule : nat -> list nat
}.

(** How a call of [download_page] ended: its guard returned without a
    request; the request or [raise_for_status] raised; the response was
    accepted and the parser raised; the page was parsed. *)
Inductive page_status : Type :=
| Refused
| Failed
| Unparsed
| Parsed.

(** What the run did, as the properties speak about it: a call of
    [download_page] with the dequeued pair and its end, and a pair put on
    the queue. *)
Inductive event : Type :=
| Download (url : string) (depth : Z) (status : page_status)
| Enqueue (link : string) (depth : Z).

(** ** The crawler object

    The fields set by [__init__], then what the run leaves outside the
    object: the text and the image directory, each a map from the name of
    a file to its content (opening a name that exists replaces the file),
    the log of [download_page] calls and enqueues and the log of image
    requests with their success (the most recent first), which the code
    does not keep and the properties speak about. *)
Record crawler : Type := {
  base_url : string;
  max_pages : Z;
  max_depth : Z;
  timeout : Z;
  visited_urls : gset string;
  image_hashes : gset string;
  clock : nat;
  text_files : gmap string string;
  image_files : gmap string string;
  history : list event;
  image_requests : list (string * bool)
}.

(** [WebCrawler(base_url, max_pages, max_depth, timeout)] *)
Definition init (url : string) (pages depth secs : Z) : crawler :=
  {| base_url := url; max_pages := pages; max_depth := depth; timeout := secs;
     visited_urls := ∅; image_hashes := ∅;
     clock := 0; text_files := ∅; image_files := ∅; history := [];
     image_requests := [] |}.

Definition tick (c : crawler) : crawler :=
  {| base_url := base_url c;
     max_pages := max_pages c;
     max_depth := max_depth c;
     timeout := timeout c;
     visited_urls := visited_urls c;
     image_hashes := image_hashes c;
     clock := S (clock c);
     text_files := text_files c;
     image_files := image_files c;
     history := history c;
     image_requests := image_requests c |}.

Definition record_event (e : event) (c : crawler) : crawler :=
  {| base_url := base_url c;
     max_pages := max_pages c;
     max_depth := max_depth c;
     timeout := timeout c;
     visited_urls := visited_urls c;
     image_hashes := image_hashes c;
     clock := clock c;
     text_files := text_files c;
     image_files := image_files c;
     history := e :: history c;
     image_requests := image_requests c |}.

Definition record_image_request (url : string) (ok : bool) (c : crawler) : crawler :=
  {| base_url := base_url c;
     max_pages := max_pages c;
     max_depth := max_depth c;
     timeout := timeout c;
     visited_urls := visited_urls c;
     image_hashes := image_hashes c;
     clock := clock c;
     text_files := text_files c;
     image_files := image_files c;
     history := history c;
     image_requests := (url, ok) :: image_requests c |}.

(** [self.visited_urls.add(url)] *)
Definition visited_add (url : string) (c : crawler) : crawler :=
  {| base_url := base_url c;
     max_pages := max_pages c;
     max_depth := max_depth c;
     timeout := timeout c;
     visited_urls := {[url]} ∪ visited_urls c;
     image_hashes := image_hashes c;
     clock := clock c;
     text_files := text_files c;
     image_files := image_files c;
     history := history c;
     image_requests := image_requests c |}.

(** [self.image_hashes.add(img_hash)] *)
Definition image_hashes_add (img_hash : string) (c : crawler) : crawler :=
  {| base_url := base_url c;
     max_pages := max_pages c;
     max_depth := max_depth c;
     timeout := timeout c;
     visited_urls := visited_urls c;
     image_hashes := {[img_hash]} ∪ image_hashes c;
     clock := clock c;
     text_files := text_files c;
     image_files := image_files c;
     history := history c;
     image_requests := image_requests c |}.

(** The file [name] of the text directory now holds [content]. *)
Definition write_text (name content : string) (c : crawler) : crawler :=
  {| base_url := base_url c;
     max_pages := max_pages c;
     max_depth := max_depth c;
     timeout := timeout c;
     visited_urls := visited_urls c;
     image_hashes := image_hashes c;
     clock := clock c;
     text_files := <[name := content]> (text_files c);
     image_files := image_files c;
     history := history c;
     image_requests := image_requests c |}.

(** The file [name] of the image directory now holds [content]. *)
Definition write_image (name content : string) (c : crawler) : crawler :=
  {| base_url := base_url c;
     max_pages := max_pages c;
     max_depth := max_depth c;
     timeout := timeout c;
     visited_urls := visited_urls c;
     image_hashes := image_hashes c;
     clock := clock c;
     text_files := text_files c;
     image_files := <[name := content]> (image_files c);
     history := history c;
     image_requests := image_requests c |}.

(** A method that can let an exception escape: it returns a value, or
    raises; either way the crawler is as the method left it. *)
Inductive outcome (A : Type) : Type :=
| Return (a : A) (c : crawler)
| Raise (c : crawler).
Arguments Return {A} a c.
Arguments Raise {A} c.

Definition after {A : Type} (o : outcome A) : crawler :=
  match o with
  | Return _ c => c
  | Raise c => c
  end.

(** The [stats] dictionary of [crawl]. *)
Record crawl_stats : Type := {
  pages_crawled : nat;
  texts_saved : nat;
  images_downloaded : nat;
  errors : nat
}.

(** ** The methods of [WebCrawler] *)

Module WebCrawler.

Section Methods.

(** Library functions the code calls: [hashlib.md5(b).hexdigest()],
    [urllib.parse.urljoin] ([None] when it raises [ValueError]),
    [urlparse(u).netloc], [os.path.splitext(urlparse(u).path)[1]] and
    [datetime.fromtimestamp(t).strftime('%Y-%m-%d %H:%M:%S')]. *)
Variable md5_hexdigest : string -> string.
Variable urljoin : string -> string -> option string.
Variable netloc : string -> string.
Variable path_ext : string -> string.
Variable strftime : Z -> string.

Variable w : world.

Definition get_url_hash (url : string) : string := md5_hexdigest url.

Definition get_image_hash (image_data : string) : string :=
  md5_hexdigest image_data.

(** [download_page]: the guard returns [(None, None)] without a request;
    otherwise the request is sent, and the URL joins [visited_urls] once
    the response has passed [raise_for_status], before it is parsed. *)
Definition download_page (c : crawler) (url : string) (depth : Z)
  : option soup * crawler :=
  if bool_decide (url ∈ visited_urls c)
     || (max_pages c <=? Z.of_nat (size (visited_urls c)))
     || (max_depth c <? depth)
  then (None, record_event (Download url depth Refused) c)
  else
    match page_get w (clock c) url with
    | FetchRaises =>
        (None, record_event (Download url depth Failed) (tick c))
    | ParseRaises =>
        (None, record_event (Download url depth Unparsed)
                            (visited_add url (tick c)))
    | Fetched doc =>
        (Some doc, record_event (Download url depth Parsed)
                                (visited_add url (tick c)))
    end.

Definition text_header (url : string) (timestamp : Z) : string :=
  "URL: " +:+ url +:+ LF
  +:+ "爬取时间: " +:+ strftime timestamp +:+ LF
  +:+ "==================================================" +:+ LF +:+ LF.

(** [extract_text]: the script and style tags leave the document (the
    caller's [soup] is this same object, so the pruned document is
    returned with the text), the text is computed, and the file is
    written; an exception of [open] or of the block under it is not
    caught, and leaves the file as far as it was written. *)
Definition extract_text (c : crawler) (doc : soup) (url : string)
  : outcome (soup * string) :=
  let doc := flat_map (extract_tags ["script"; "style"]) doc in
  let text := get_text LF doc in
  let lines := List.filter (fun line => negb (bool_decide (line = "")))
                           (map py_strip (py_splitlines text)) in
  let text := py_join LF lines in
  let url_hash := get_url_hash url in
  let timestamp := now w (clock c) in
  let c := tick c in
  let filename := url_hash +:+ "_" +:+ pretty timestamp +:+ ".txt" in
  let content := text_header url timestamp +:+ text in
  match file_write w (clock c) with
  | Written => Return (doc, text) (write_text filename content (tick c))
  | WriteRaises kept =>
      Raise (write_text filename (substring 0 kept content) (tick c))
  | OpenRaises => Raise (tick c)
  end.

Definition image_extensions : list string :=
  [".jpg"; ".jpeg"; ".png"; ".gif"; ".bmp"; ".webp"].

(** Lines 215 to 233 of [download_image]: name the file and write it; the
    [except] clause turns an exception of [open] or [write] into [False],
    and the file stays as far as it was written. *)
Definition save_image (c : crawler) (img_url img_data : string)
  : bool * crawler :=
  let url_hash := get_url_hash img_url in
  let timestamp := now w (clock c) in
  let c := tick c in
  let ext := path_ext img_url in
  let ext := if bool_decide (ext = "")
                || negb (bool_decide (py_lower ext ∈ image_extensions))
             then ".jpg" else ext in
  let filename := url_hash +:+ "_" +:+ pretty timestamp +:+ ext in
  match file_write w (clock c) with
  | Written => (true, write_image filename img_data (tick c))
  | WriteRaises kept =>
      (false, write_image filename (substring 0 kept img_data) (tick c))
  | OpenRaises => (false, tick c)
  end.

(** [download_image], run from its first line to its [return] with no
    other thread in between. *)
Definition download_image (c : crawler) (img_url : string) : bool * crawler :=
  match image_get w (clock c) img_url with
  | ImageRaises => (false, record_image_request img_url false (tick c))
  | ImageResponse content_type img_data =>
      let c := record_image_request img_url true (tick c) in
      if negb (startswith content_type "image/") then (false, c)
      else
        let img_hash := get_image_hash img_data in
        if bool_decide (img_hash ∈ image_hashes c) then (false, c)
        else save_image (image_hashes_add img_hash c) img_url img_data
  end.

(** *** The thread pool of [extract_images]

    A call of [download_image] running in a pool thread, cut where
    another thread can take over: after the response has been read and
    hashed, after the membership test of line 208, and after the
    insertion of line 212. *)
Inductive task : Type :=
| Submitted (img_url : string)
| Hashed (img_url img_data : string)
| Unseen (img_url img_data : string)
| Inserted (img_url img_data : string)
| Finished (result : bool).

Definition task_step (c : crawler) (t : task) : crawler * task :=
  match t with
  | Submitted img_url =>
      match image_get w (clock c) img_url with
      | ImageRaises =>
          (record_image_request img_url false (tick c), Finished false)
      | ImageResponse content_type img_data =>
          let c := record_image_request img_url true (tick c) in
          if negb (startswith content_type "image/")
          then (c, Finished false)
          else (c, Hashed img_url img_data)
      end
  | Hashed img_url img_data =>
      if bool_decide (get_image_hash img_data ∈ image_hashes c)
      then (c, Finished false)
      else (c, Unseen img_url img_data)
  | Unseen img_url img_data =>
      (image_hashes_add (get_image_hash img_data) c, Inserted img_url img_data)
  | Inserted img_url img_data =>
      let (result, c') := save_image c img_url img_data in
      (c', Finished result)
  | Finished result => (c, t)
  end.

(** Run one task to its end without interruption. *)
Definition task_finish (c : crawler) (t : task) : crawler * task :=
  let (c1, t1) := task_step c t in
  let (c2, t2) := task_step c1 t1 in
  let (c3, t3) := task_step c2 t2 in
  task_step c3 t3.

Definition started (t : task) : bool :=
  match t with Submitted _ => false | _ => true end.

Definition finished (t : task) : bool :=
  match t with Finished _ => true | _ => false end.

Definition in_flight (tasks : list task) : nat :=
  length (List.filter (fun t => started t && negb (finished t)) tasks).

(** [ThreadPoolExecutor(max_workers=5)]: a started task may go on; a
    submitted one starts when all those submitted before it have started
    and fewer than five are running. *)
Definition may_run (tasks : list task) (i : nat) : bool :=
  match tasks !! i with
  | None => false
  | Some (Finished _) => false
  | Some (Submitted _) =>
      forallb started (take i tasks) && (in_flight tasks <? 5)%nat
  | Some _ => true
  end.

(** One turn of thread [i]; a turn it cannot take is lost. *)
Definition pool_turn (st : crawler * list task) (i : nat) : crawler * list task :=
  let (c, tasks) := st in
  if may_run tasks i then
    match tasks !! i with
    | Some t => let (c', t') := task_step c t in (c', <[i := t']> tasks)
    | None => st
    end
  else st.

(** Leaving the [with] block waits for every task: those the schedule
    left unfinished run to their end in submission order. *)
Fixpoint pool_join (c : crawler) (tasks : list task) : crawler * list task :=
  match tasks with
  | [] => (c, [])
  | t :: rest =>
      let (c', t') := task_finish c t in
      let (c'', rest') := pool_join c' rest in
      (c'', t' :: rest')
  end.

Definition pool_run (turns : list nat) (c : crawler) (tasks : list task)
  : crawler * list task :=
  let (c', tasks') := fold_left pool_turn turns (c, tasks) in
  pool_join c' tasks'.

(** The submission loop of [extract_images]: the image URLs in document
    order, and whether [urljoin] raised, which ends the loop. *)
Fixpoint image_urls (base : string) (img_tags : list node) : list string * bool :=
  match img_tags with
  | [] => ([], false)
  | img :: rest =>
      match attr_get "src" (node_attrs img) with
      | None => image_urls base rest
      | Some src =>
          if bool_decide (src = "") then image_urls base rest
          else match urljoin base src with
               | None => ([], true)
               | Some img_url =>
                   let (urls, raised) := image_urls base rest in
                   (img_url :: urls, raised)
               end
      end
  end.

Definition count_true (tasks : list task) : nat :=
  length (List.filter (fun t => match t with Finished true => true | _ => false end)
                      tasks).

(** [extract_images]: the tasks submitted before an exception still run
    to their end, then the exception leaves the method. *)
Definition extract_images (c : crawler) (doc : soup) (url : string)
  : outcome nat :=
  let img_tags := find_all "img" doc in
  let (urls, raised) := image_urls url img_tags in
  let turns := schedule w (clock c) in
  let (c', tasks) := pool_run turns (tick c) (map Submitted urls) in
  if raised then Raise c' else Return (count_true tasks) c'.

(** [extract_links]: [None] when [urljoin] raises. *)
Fixpoint keep_links (base : string) (a_tags : list node) : option (list string) :=
  match a_tags with
  | [] => Some []
  | a_tag :: rest =>
      match attr_get "href" (node_attrs a_tag) with
      | None => None
      | Some href =>
          match urljoin base href with
          | None => None
          | Some full_url =>
              match keep_links base rest with
              | None => None
              | Some links =>
                  if (startswith full_url "http://" || startswith full_url "https://")
                     && bool_decide (netloc full_url = netloc base)
                  then Some (full_url :: links)
                  else Some links
              end
          end
      end
  end.

Definition extract_links (doc : soup) (url : string) : option (list string) :=
  keep_links url (find_all_with "a" "href" doc).

(** *** The loop of [crawl] *)

Inductive phase : Type :=
| Looping     (* at the test of the [while] *)
| Returned    (* [return stats] *)
| Escaped.    (* an exception left [crawl] *)

Record run : Type := {
  self : crawler;
  queue : list (string * Z);
  stats : crawl_stats;
  at_phase : phase
}.

Definition count_error (s : crawl_stats) : crawl_stats :=
  {| pages_crawled := pages_crawled s; texts_saved := texts_saved s;
     images_downloaded := images_downloaded s; errors := S (errors s) |}.

Definition count_page (s : crawl_stats) : crawl_stats :=
  {| pages_crawled := S (pages_crawled s); texts_saved := texts_saved s;
     images_downloaded := images_downloaded s; errors := errors s |}.

Definition count_text (s : crawl_stats) : crawl_stats :=
  {| pages_crawled := pages_crawled s; texts_saved := S (texts_saved s);
     images_downloaded := images_downloaded s; errors := errors s |}.

Definition count_images (img_count : nat) (s : crawl_stats) : crawl_stats :=
  {| pages_crawled := pages_crawled s; texts_saved := texts_saved s;
     images_downloaded := (images_downloaded s + img_count)%nat;
     errors := errors s |}.

(** One pass of [for link in links]. *)
Definition enqueue_link (depth : Z) (st : crawler * list (string * Z))
           (link : string) : crawler * list (string * Z) :=
  let (c, q) := st in
  if bool_decide (link ∈ visited_urls c) then st
  else (record_event (Enqueue link (depth + 1)) c, q ++ [(link, depth + 1)]).

(** The test of the [while] and one pass through its body. *)
Definition crawl_iteration (r : run) : run :=
  match at_phase r with
  | Returned | Escaped => r
  | Looping =>
      let c := self r in
      match queue r with
      | [] => {| self := c; queue := []; stats := stats r; at_phase := Returned |}
      | (url, depth) :: q =>
          if negb (Z.of_nat (size (visited_urls c)) <? max_pages c)
          then {| self := c; queue := queue r; stats := stats r;
                  at_phase := Returned |}
          else if bool_decide (url ∈ visited_urls c)
          then {| self := c; queue := q; stats := stats r; at_phase := Looping |}
          else
            match download_page c url depth with
            | (None, c) =>
                {| self := c; queue := q; stats := count_error (stats r);
                   at_phase := Looping |}
            | (Some doc, c) =>
                let st := count_page (stats r) in
                match extract_text c doc url with
                | Raise c =>
                    {| self := c; queue := q; stats := st; at_phase := Escaped |}
                | Return (doc, _) c =>
                    let st := count_text st in
                    match extract_images c doc url with
                    | Raise c =>
                        {| self := c; queue := q; stats := st;
                           at_phase := Escaped |}
                    | Return img_count c =>
                        let st := count_images img_count st in
                        if depth <? max_depth c then
                          match extract_links doc url with
                          | None =>
                              {| self := c; queue := q; stats := st;
                                 at_phase := Escaped |}
                          | Some links =>
                              let (c, q) :=
                                fold_left (enqueue_link depth) links (c, q) in
                              {| self := c; queue := q; stats := st;
                                 at_phase := Looping |}
                          end
                        else {| self := c; queue := q; stats := st;
                                at_phase := Looping |}
                    end
                end
            end
      end
  end.

Definition crawl_start (c : crawler) : run :=
  {| self := c; queue := [(base_url c, 0)];
     stats := {| pages_crawled := 0; texts_saved := 0;
                 images_downloaded := 0; errors := 0 |};
     at_phase := Looping |}.

Fixpoint iterate (n : nat) (r : run) : run :=
  match n with
  | O => r
  | S n' => iterate n' (crawl_iteration r)
  end.

(** [crawl]: [None] when [fuel] tests of the [while] do not reach the end
    of the loop. *)
Definition crawl (fuel : nat) (c : crawler) : option (outcome crawl_stats) :=
  let r := iterate fuel (crawl_start c) in
  match at_phase r with
  | Looping => None
  | Returned => Some (Return (stats r) (self r))
  | Escaped => Some (Raise (self r))
  end.

End Methods.

End WebCrawler.

Import WebCrawler.

(** ** A small web for the examples

    Stand-ins for the library functions, which agree with the library on
    the URLs used below (absolute URLs and hrefs that start with a slash,
    on pages at the root of their site), and an injective digest. *)

Definition demo_md5 (s : string) : string := "md5:" +:+ s.

Fixpoint split_scheme (s : string) : string * string :=
  match s with
  | String ":" (String "/" (String "/" rest)) => ("", rest)
  | String ch s' => let (scheme, rest) := split_scheme s' in (String ch scheme, rest)
  | EmptyString => ("", "")
  end.

Fixpoint until_slash (s : string) : string :=
  match s with
  | String "/" _ => ""
  | String ch s' => String ch (until_slash s')
  | EmptyString => ""
  end.

Definition demo_netloc (url : string) : string :=
  until_slash (snd (split_scheme url)).

Definition demo_urljoin (base href : string) : option string :=
  if startswith href "http://" || startswith href "https://" then Some href
  else if startswith href "/"
  then Some (fst (split_scheme base) +:+ "://" +:+ demo_netloc base +:+ href)
  else None.

Definition demo_path_ext (url : string) : string :=
  if String.prefix "gnp." (String.rev url) then ".png" else "".

Definition demo_strftime (t : Z) : string := pretty t.

Definition anchor (href : string) : node :=
  Tag "a" [("href", href)] [NavigableString href].

Definition image (src : string) : node := Tag "img" [("src", src)] [].

Definition quiet_world (pages : nat -> string -> fetch_result) : world :=
  {| page_get := pages;
     image_get := fun _ _ => ImageRaises;
     file_write := fun _ => Written;
     now := fun _ => 1700000000;
     schedule := fun _ => [] |}.

Definition demo_crawl_iterate (w : world) (n : nat) (c : crawler) : run :=
  iterate demo_md5 demo_urljoin demo_netloc demo_path_ext demo_strftime w n
          (crawl_start c).

Definition seed_url : string := "http://a.com/".

(** Every page request fails. *)
Definition dead_world : world := quiet_world (fun _ _ => FetchRaises).

(** The seed links to [/a], to another site and to [/b], and embeds a
    script and an image; [/b] links back to [/a]; every other page request
    fails, and so does every image request. *)
Definition seed_page : soup :=
  [Tag "html" []
     [Tag "script" [] [NavigableString "x = 1"];
      NavigableString " hi ";
      anchor "/a"; anchor "http://b.com/x"; anchor "/b";
      image "/i.png"]].

Definition flaky_world : world :=
  quiet_world (fun _ url =>
    if bool_decide (url = "http://a.com/") then Fetched seed_page
    else if bool_decide (url = "http://a.com/b") then Fetched [anchor "/a"]
    else FetchRaises).

(** The seed embeds two images at different URLs whose bodies are the same
    bytes; [turns] is the order in which the two pool threads run. *)
Definition twin_world (turns : list nat) : world :=
  {| page_get := fun _ url =>
       if bool_decide (url = "http://a.com/")
       then Fetched [image "/i1.png"; image "/i2.png"]
       else FetchRaises;
     image_get := fun _ _ => ImageResponse "image/png" "PNG-BYTES";
     file_write := fun _ => Written;
     now := fun _ => 1700000000;
     schedule := fun _ => turns |}.

Definition demo_crawl (w : world) (fuel : nat) (c : crawler)
  : option (outcome crawl_stats) :=
  crawl demo_md5 demo_urljoin demo_netloc demo_path_ext demo_strftime w fuel c.

(** ** What the properties read off a run *)

(** The part of the crawler that the loop of [crawl] decides on. *)
Definition crawl_state (c : crawler)
  : string * Z * Z * gset string * list event :=
  (base_url c, max_pages c, max_depth c, visited_urls c, history c).

(** The part of the crawler that the image downloads work on. *)
Definition image_state (c : crawler)
  : gset string * gmap string string * list (string * bool) :=
  (image_hashes c, image_files c, image_requests c).

(** A request was sent. *)
Definition requested (s : page_status) : bool :=
  match s with Refused => false | _ => true end.

(** The response passed [raise_for_status]. *)
Definition accepted (s : page_status) : bool :=
  match s with Unparsed | Parsed => true | _ => false end.

Fixpoint requested_urls (h : list event) : list string :=
  match h with
  | [] => []
  | Download url _ s :: h' =>
      if requested s then url :: requested_urls h' else requested_urls h'
  | Enqueue _ _ :: h' => requested_urls h'
  end.

Fixpoint accepted_urls (h : list event) : list string :=
  match h with
  | [] => []
  | Download url _ s :: h' =>
      if accepted s then url :: accepted_urls h' else accepted_urls h'
  | Enqueue _ _ :: h' => accepted_urls h'
  end.

(** The calls of [download_page] that returned [(None, None)]. *)
Fixpoint failed_downloads (h : list event) : nat :=
  match h with
  | [] => 0
  | Download _ _ Parsed :: h' => failed_downloads h'
  | Download _ _ _ :: h' => S (failed_downloads h')
  | Enqueue _ _ :: h' => failed_downloads h'
  end.

Fixpoint parsed_downloads (h : list event) : nat :=
  match h with
  | [] => 0
  | Download _ _ Parsed :: h' => S (parsed_downloads h')
  | _ :: h' => parsed_downloads h'
  end.

(** The calls of [download_page]: the dequeued pairs that went past the
    test of line 282. *)
Fixpoint downloads (h : list event) : nat :=
  match h with
  | [] => 0
  | Download _ _ _ :: h' => S (downloads h')
  | Enqueue _ _ :: h' => downloads h'
  end.

(** What [extract_links] keeps of a resolved link: an HTTP or HTTPS URL
    whose authority is that of the page. *)
Definition same_origin_link (netloc : string -> string) (base link : string)
  : Prop :=
  (startswith link "http://" || startswith link "https://") = true
  ∧ netloc link = netloc base.

(** The links that pass the test of line 304. *)
Definition fresh_links (c : crawler) (links : list string) : list string :=
  List.filter (fun link => negb (bool_decide (link ∈ visited_urls c))) links.

Definition enqueue_events (depth : Z) (links : list string) : list event :=
  rev (map (fun link => Enqueue link (depth + 1)) links).

(** The depth bound on the run: a request is sent only for a pair of depth
    at most [limit], and a pair is put on the queue only from a page of
    depth below [limit] (the pair carries the depth of that page plus one). *)
Definition depth_bounded (limit : Z) (e : event) : Prop :=
  match e with
  | Download _ depth s => requested s = true → depth <= limit
  | Enqueue _ depth => depth - 1 < limit
  end.

(** The origin filter on the run: a link put on the queue is an HTTP or
    HTTPS URL with the authority of [seed]. *)
Definition enqueued_same_origin (netloc : string -> string) (seed : string)
           (e : event) : Prop :=
  match e with
  | Download _ _ _ => True
  | Enqueue link _ => same_origin_link netloc seed link
  end.

Definition is_enqueue (e : event) : Prop :=
  match e with
  | Enqueue _ _ => True
  | Download _ _ _ => False
  end.

(** No request is sent for a URL of which an earlier request was accepted
    (the history has the most recent event first). *)
Fixpoint accepted_once (h : list event) : Prop :=
  match h with
  | [] => True
  | Download url _ s :: h' =>
      (requested s = true → url ∉ accepted_urls h') ∧ accepted_once h'
  | Enqueue _ _ :: h' => accepted_once h'
  end.

(** The counters against the history and the text directory: no file is
    in the directory that a parsed page does not account for. *)
Definition stats_invariant (c0 : crawler) (r : run) : Prop :=
  (errors (stats r) + failed_downloads (history c0)
   = failed_downloads (history (self r)))%nat
  ∧ (pages_crawled (stats r) + parsed_downloads (history c0)
     = parsed_downloads (history (self r)))%nat
  ∧ (size (text_files (self r))
     <= size (text_files c0) + pages_crawled (stats r))%nat
  ∧ (texts_saved (stats r) = pages_crawled (stats r)
     ∨ (at_phase r = Escaped
        ∧ S (texts_saved (stats r)) = pages_crawled (stats r))).

(** The visited set against the history, for a crawler that starts with
    both empty: the visited URLs are those of the accepted requests, each
    accepted once, and the page cap bounds their number. *)
Definition visited_invariant (pages : Z) (r : run) : Prop :=
  max_pages (self r) = pages
  ∧ visited_urls (self r) = list_to_set (accepted_urls (history (self r)))
  ∧ NoDup (accepted_urls (history (self r)))
  ∧ accepted_once (history (self r))
  ∧ Z.of_nat (size (visited_urls (self r))) <= Z.max 0 pages.

(** The requests sent for [url]. *)
Definition requests_for (url : string) (h : list event) : nat :=
  length (List.filter (fun u => bool_decide (u = url)) (requested_urls h)).

(** What a pass of the loop that gets a parsed page does to the run: [new]
    are the links put on the queue. *)
Definition page_outcome (netloc : string -> string) (r r' : run)
           (url : string) (depth : Z) (q : list (string * Z)) (c1 : crawler)
  : Prop :=
  ∃ new : list string,
    (new = [] ∨ depth < max_depth c1)
    ∧ Forall (fun link => same_origin_link netloc url link
                          ∧ link ∉ visited_urls c1) new
    ∧ crawl_state (self r')
      = (base_url c1, max_pages c1, max_depth c1, visited_urls c1,
         enqueue_events depth new ++ history c1)
    ∧ queue r' = q ++ map (fun link => (link, depth + 1)) new
    ∧ at_phase r' ≠ Returned
    ∧ pages_crawled (stats r') = S (pages_crawled (stats r))
    ∧ errors (stats r') = errors (stats r)
    ∧ (size (text_files (self r')) <= S (size (text_files c1)))%nat
    ∧ ((at_phase r' = Escaped
        ∧ texts_saved (stats r') = texts_saved (stats r))
       ∨ texts_saved (stats r') = S (texts_saved (stats r))).

(** Every file of the image directory holds the body of a response whose
    hash is in [image_hashes], or the first bytes of such a body when the
    write did not run to its end. *)
Definition files_hashed (md5_hexdigest : string -> string) (c : crawler)
  : Prop :=
  map_Forall
    (fun _ content =>
       ∃ img_data, md5_hexdigest img_data ∈ image_hashes c
                   ∧ (content = img_data
                      ∨ ∃ kept, content = substring 0 kept img_data))
    (image_files c).

(** A download that has passed line 212 has its hash in [image_hashes]. *)
Definition task_hash_ok (md5_hexdigest : string -> string) (c : crawler)
           (t : task) : Prop :=
  match t with
  | Inserted _ img_data => md5_hexdigest img_data ∈ image_hashes c
  | _ => True
  end.

(** The pool of one page, between two turns of its threads. *)
Definition pool_hashed (md5_hexdigest : string -> string)
           (st : crawler * list task) : Prop :=
  files_hashed md5_hexdigest st.1
  ∧ Forall (task_hash_ok md5_hexdigest st.1) st.2.

(** The URLs of the downloads that have not sent their request. *)
Definition pending (tasks : list task) : list string :=
  flat_map (fun t => match t with
                     | Submitted img_url => [img_url]
                     | _ => []
                     end) tasks.

(** The URLs of the image requests sent so far, with those still to be
    sent by the pool. *)
Definition requests_due (st : crawler * list task) : list string :=
  map fst (image_requests st.1) ++ pending st.2.

(** The text that lines 127 to 135 of [extract_text] make of a page. *)
Definition page_text (doc : soup) : string :=
  py_join LF
    (List.filter (fun line => negb (bool_decide (line = "")))
       (map py_strip
          (py_splitlines
             (get_text LF
                (flat_map (extract_tags ["script"; "style"]) doc))))).

(** The depths of the pairs handed to [download_page], the most recent
    first. *)
Fixpoint download_depths (h : list event) : list Z :=
  match h with
  | [] => []
  | Download _ depth _ :: h' => depth :: download_depths h'
  | Enqueue _ _ :: h' => download_depths h'
  end.

(** Every element is at most every later one. *)
Fixpoint ascending (ds : list Z) : Prop :=
  match ds with
  | [] => True
  | d :: rest => Forall (fun d' => d <= d') rest ∧ ascending rest
  end.

(** The breadth-first shape of a run: the queue is sorted by depth and
    spans at most two depths, the pairs were handed to [download_page] in
    order of depth, and none of them is deeper than a queued pair. *)
Definition breadth_first (r : run) : Prop :=
  let ds := map snd (queue r) in
  let past := download_depths (history (self r)) in
  ascending ds
  ∧ (∀ d0, head ds = Some d0 → Forall (fun d => d <= d0 + 1) ds)
  ∧ ascending (rev past)
  ∧ Forall (fun d => Forall (fun d' => d <= d') ds) past.

(** The pair handed to [download_page] has the authority of [seed]. *)
Definition download_same_origin (netloc : string -> string) (seed : string)
           (e : event) : Prop :=
  match e with
  | Download url _ _ => netloc url = netloc seed
  | Enqueue _ _ => True
  end.

(** The [stats] dictionary as [crawl] creates it, with [n] errors. *)
Definition stats_with_errors (n : nat) : crawl_stats :=
  {| pages_crawled := 0; texts_saved := 0; images_downloaded := 0;
     errors := n |}.

(** Induction on a document node that reaches the contents of a tag. *)
Fixpoint node_contents_ind (P : node -> Prop)
         (Hs : forall s, P (NavigableString s))
         (Hc : forall s, P (Comment s))
         (Hd : forall s, P (Doctype s))
         (Ht : forall name attrs contents,
             Forall P contents -> P (Tag name attrs contents))
         (n : node) : P n :=
  match n with
  | NavigableString s => Hs s
  | Comment s => Hc s
  | Doctype s => Hd s
  | Tag name attrs contents =>
      Ht name attrs contents
         ((fix go (l : list node) : Forall P l :=
             match l with
             | [] => @List.Forall_nil node P
             | m :: l' =>
                 @List.Forall_cons node P m l'
                   (node_contents_ind P Hs Hc Hd Ht m) (go l')
             end) contents)
  end.

(** A tag whose name is one of [names]. *)
Definition named (names : list string) (n : node) : bool :=
  match n with
  | Tag name _ _ => bool_decide (name ∈ names)
  | NavigableString _ | Comment _ | Doctype _ => false
  end.

(** [strip] on the bytes of a string. *)
Definition strip_chars (l : list ascii) : list ascii :=
  rev (lstrip_chars true (rev (lstrip_chars false l))).

(** [l] starts with a white-space character. *)
Definition leading_space (back : bool) (l : list ascii) : bool :=
  match l with
  | a :: l1 =>
      py_isspace a
      || match l1 with
         | b :: l2 =>
             (if back then py_isspace2 b a else py_isspace2 a b)
             || match l2 with
                | c :: _ => if back then py_isspace3 c b a else py_isspace3 a b c
                | [] => false
                end
         | [] => false
         end
  | [] => false
  end.

(** [l] starts with a line boundary. *)
Definition boundary_at (l : list ascii) : bool :=
  match l with
  | a :: l1 =>
      is_line_boundary a
      || match l1 with
         | b :: l2 =>
             is_line_boundary2 a b
             || match l2 with
                | c :: _ => is_line_boundary3 a b c
                | [] => false
                end
         | [] => false
         end
  | [] => false
  end.

(** No line boundary starts in [x], when [l] follows it. *)
Fixpoint no_boundary (x l : list ascii) : bool :=
  match x with
  | [] => true
  | _ :: x' => negb (boundary_at (x ++ l)) && no_boundary x' l
  end.

(** [str.splitlines] finds no line boundary in the string. *)
Definition one_line (s : string) : Prop :=
  no_boundary (list_ascii_of_string s) [] = true.

(** A line as [extract_text] keeps it: not empty, and [strip] leaves it
    as it is. *)
Definition kept_line (line : string) : Prop :=
  line ≠ "" ∧ py_strip line = line.

Section Properties.

Variable md5_hexdigest : string -> string.
Variable urljoin : string -> string -> option string.
Variable netloc : string -> string.
Variable path_ext : string -> string.
Variable strftime : Z -> string.
Variable w : world.

Local Abbreviation extract_text := (extract_text md5_hexdigest strftime w).
Local Abbreviation save_image := (save_image md5_hexdigest path_ext w).
Local Abbreviation download_image := (download_image md5_hexdigest path_ext w).
Local Abbreviation task_step := (task_step md5_hexdigest path_ext w).
Local Abbreviation task_finish := (task_finish md5_hexdigest path_ext w).
Local Abbreviation pool_turn := (pool_turn md5_hexdigest path_ext w).
Local Abbreviation pool_join := (pool_join md5_hexdigest path_ext w).
Local Abbreviation pool_run := (pool_run md5_hexdigest path_ext w).
Local Abbreviation extract_images := (extract_images md5_hexdigest urljoin path_ext w).
Local Abbreviation extract_links := (extract_links urljoin netloc).
Local Abbreviation crawl_iteration :=
  (crawl_iteration md5_hexdigest urljoin netloc path_ext strftime w).
Local Abbreviation iterate :=
  (iterate md5_hexdigest urljoin netloc path_ext strftime w).
Local Abbreviation crawl :=
  (crawl md5_hexdigest urljoin netloc path_ext strftime w).

(** *** What each method leaves alone *)

Lemma extract_text_crawl_state c doc url :
  crawl_state (after (extract_text c doc url)) = crawl_state c.
Proof. unfold WebCrawler.extract_text. by case_match. Qed.

Lemma extract_text_image_state c doc url :
  image_state (after (extract_text c doc url)) = image_state c.
Proof. unfold WebCrawler.extract_text. by case_match. Qed.

Lemma size_insert_le (name content : string) (files : gmap string string) :
  (size (<[name := content]> files) <= S (size files))%nat.
Proof.
  destruct (files !! name) as [old|] eqn:Hname.
  - rewrite <- (insert_delete_id files name old) at 2 by done.
    rewrite <- (insert_delete_eq files name content).
    rewrite !map_size_insert_None by apply lookup_delete_eq. lia.
  - rewrite map_size_insert_None by done. lia.
Qed.

Lemma extract_text_text_files c doc url :
  (size (text_files (after (extract_text c doc url)))
   <= S (size (text_files c)))%nat.
Proof.
  unfold WebCrawler.extract_text. case_match; simpl;
    [lia|apply size_insert_le..].
Qed.

Lemma save_image_crawl_state c img_url img_data :
  crawl_state (save_image c img_url img_data).2 = crawl_state c
  ∧ text_files (save_image c img_url img_data).2 = text_files c.
Proof. unfold WebCrawler.save_image. by case_match. Qed.

Lemma task_step_crawl_state c t :
  crawl_state (task_step c t).1 = crawl_state c
  ∧ text_files (task_step c t).1 = text_files c.
Proof.
  destruct t as [u|u d|u d|u d|b]; simpl; try done.
  - by repeat case_match.
  - by case_match.
  - pose proof (save_image_crawl_state c u d) as Hs.
    by destruct (save_image c u d).
Qed.

Lemma task_finish_crawl_state c t :
  crawl_state (task_finish c t).1 = crawl_state c
  ∧ text_files (task_finish c t).1 = text_files c.
Proof.
  unfold WebCrawler.task_finish.
  pose proof (task_step_crawl_state c t) as H1.
  destruct (task_step c t) as [c1 t1].
  pose proof (task_step_crawl_state c1 t1) as H2.
  destruct (task_step c1 t1) as [c2 t2].
  pose proof (task_step_crawl_state c2 t2) as H3.
  destruct (task_step c2 t2) as [c3 t3].
  pose proof (task_step_crawl_state c3 t3) as H4.
  destruct (task_step c3 t3) as [c4 t4]. simpl in *.
  destruct H1, H2, H3, H4. split; congruence.
Qed.

Lemma pool_turn_crawl_state st i :
  crawl_state (pool_turn st i).1 = crawl_state st.1
  ∧ text_files (pool_turn st i).1 = text_files st.1.
Proof.
  destruct st as [c tasks]. unfold WebCrawler.pool_turn.
  destruct (may_run tasks i); [|done].
  destruct (tasks !! i) as [t|]; [|done].
  pose proof (task_step_crawl_state c t) as Hs.
  by destruct (task_step c t).
Qed.

Lemma pool_turns_crawl_state turns st :
  crawl_state (fold_left pool_turn turns st).1 = crawl_state st.1
  ∧ text_files (fold_left pool_turn turns st).1 = text_files st.1.
Proof.
  revert st. induction turns as [|i turns IH]; intros st; simpl; [done|].
  destruct (IH (pool_turn st i)) as [E1 E2], (pool_turn_crawl_state st i).
  split; congruence.
Qed.

Lemma pool_join_crawl_state c tasks :
  crawl_state (pool_join c tasks).1 = crawl_state c
  ∧ text_files (pool_join c tasks).1 = text_files c.
Proof.
  revert c. induction tasks as [|t tasks IH]; intros c; simpl; [done|].
  pose proof (task_finish_crawl_state c t) as Hf.
  destruct (task_finish c t) as [c1 t1].
  specialize (IH c1). destruct (pool_join c1 tasks) as [c2 ts]. simpl in *.
  destruct IH, Hf. split; congruence.
Qed.

Lemma extract_images_crawl_state c doc url :
  crawl_state (after (extract_images c doc url)) = crawl_state c
  ∧ text_files (after (extract_images c doc url)) = text_files c.
Proof.
  unfold WebCrawler.extract_images, WebCrawler.pool_run.
  destruct (image_urls urljoin url (find_all "img" doc)) as [urls raised].
  pose proof (pool_turns_crawl_state (schedule w (clock c))
                (tick c, map Submitted urls)) as Ht.
  destruct (fold_left pool_turn _ _) as [c1 ts1].
  pose proof (pool_join_crawl_state c1 ts1) as Hj.
  destruct (pool_join c1 ts1) as [c2 ts2]. simpl in *.
  destruct Hj as [Hj1 Hj2], Ht as [Ht1 Ht2].
  assert (crawl_state (tick c) = crawl_state c) by done.
  assert (text_files (tick c) = text_files c) by done.
  destruct raised; simpl; split; congruence.
Qed.

(** *** The links that reach the queue *)

Lemma keep_links_same_origin base a_tags links :
  keep_links urljoin netloc base a_tags = Some links →
  Forall (same_origin_link netloc base) links.
Proof.
  revert links. induction a_tags as [|a_tag rest IH]; intros links; simpl.
  - intros [= <-]. constructor.
  - destruct (attr_get "href" (node_attrs a_tag)) as [href|]; [|done].
    destruct (urljoin base href) as [full_url|]; [|done].
    destruct (keep_links urljoin netloc base rest) as [links'|]; [|done].
    specialize (IH links' eq_refl).
    destruct (_ && _) eqn:Hkeep; intros [= <-]; [|done].
    constructor; [|done].
    apply andb_true_iff in Hkeep as [Hscheme Hloc].
    split; [done|]. by apply bool_decide_eq_true in Hloc.
Qed.

Lemma enqueue_links_spec depth links c q :
  let st := fold_left (enqueue_link depth) links (c, q) in
  crawl_state st.1
  = (base_url c, max_pages c, max_depth c, visited_urls c,
     enqueue_events depth (fresh_links c links) ++ history c)
  ∧ st.2 = q ++ map (fun link => (link, depth + 1)) (fresh_links c links)
  ∧ text_files st.1 = text_files c
  ∧ image_state st.1 = image_state c.
Proof.
  revert c q. induction links as [|link links IH]; intros c q; simpl.
  - by rewrite app_nil_r.
  - destruct (bool_decide (link ∈ visited_urls c)) eqn:Hin; simpl.
    + apply IH.
    + destruct (IH (record_event (Enqueue link (depth + 1)) c)
                   (q ++ [(link, depth + 1)])) as (E1 & E2 & E3 & E4).
      unfold fresh_links in *. simpl in *.
      rewrite E1, E2, E3, E4. unfold enqueue_events. simpl.
      rewrite <- !app_assoc. done.
Qed.

Lemma fresh_links_Forall (P : string → Prop) c links :
  Forall P links →
  Forall (fun link => P link ∧ link ∉ visited_urls c) (fresh_links c links).
Proof.
  unfold fresh_links. induction 1 as [|link links HP _ IH]; simpl; [constructor|].
  destruct (bool_decide (link ∈ visited_urls c)) eqn:Hin; simpl; [done|].
  constructor; [|done]. split; [done|]. by apply bool_decide_eq_false in Hin.
Qed.

(** *** One call of [download_page] *)

Lemma download_page_cases c url depth :
  (download_page w c url depth
   = (None, record_event (Download url depth Refused) c)
   ∧ (url ∈ visited_urls c ∨ (max_pages c <= Z.of_nat (size (visited_urls c)))
      ∨ (max_depth c < depth)))
  ∨ ((url ∉ visited_urls c) ∧ (Z.of_nat (size (visited_urls c)) < max_pages c)
     ∧ (depth <= max_depth c)
     ∧ ((page_get w (clock c) url = FetchRaises
         ∧ download_page w c url depth
           = (None, record_event (Download url depth Failed) (tick c)))
        ∨ (page_get w (clock c) url = ParseRaises
           ∧ download_page w c url depth
             = (None, record_event (Download url depth Unparsed)
                                   (visited_add url (tick c))))
        ∨ (∃ doc, page_get w (clock c) url = Fetched doc
           ∧ download_page w c url depth
             = (Some doc, record_event (Download url depth Parsed)
                                       (visited_add url (tick c)))))).
Proof.
  unfold download_page.
  destruct (bool_decide (url ∈ visited_urls c)) eqn:Hv; simpl.
  { left. split; [done|]. left. by apply bool_decide_eq_true in Hv. }
  apply bool_decide_eq_false in Hv.
  destruct (max_pages c <=? Z.of_nat (size (visited_urls c))) eqn:Hp; simpl.
  { left. split; [done|]. right; left. by apply Z.leb_le. }
  apply Z.leb_gt in Hp.
  destruct (max_depth c <? depth) eqn:Hd.
  { left. split; [done|]. right; right. by apply Z.ltb_lt. }
  apply Z.ltb_ge in Hd.
  right. repeat split; try done.
  destruct (page_get w (clock c) url) as [| |doc]; eauto.
Qed.

(** *** One pass of the loop *)

Lemma iteration_cases r :
  at_phase r = Looping →
  (crawl_iteration r
   = {| self := self r; queue := queue r; stats := stats r; at_phase := Returned |}
   ∧ (queue r = []
      ∨ max_pages (self r) <= Z.of_nat (size (visited_urls (self r)))))
  ∨ ∃ url depth q,
      queue r = (url, depth) :: q
      ∧ Z.of_nat (size (visited_urls (self r))) < max_pages (self r)
      ∧ ((url ∈ visited_urls (self r)
          ∧ crawl_iteration r
            = {| self := self r; queue := q; stats := stats r;
                 at_phase := Looping |})
         ∨ ((url ∉ visited_urls (self r))
            ∧ ∃ c1, download_page w (self r) url depth = (None, c1)
                    ∧ crawl_iteration r
                      = {| self := c1; queue := q;
                           stats := count_error (stats r);
                           at_phase := Looping |})
         ∨ ((url ∉ visited_urls (self r))
            ∧ ∃ doc c1, download_page w (self r) url depth = (Some doc, c1)
                        ∧ page_outcome netloc r (crawl_iteration r) url depth q c1)).
Proof.
  intros Hphase. unfold WebCrawler.crawl_iteration. rewrite Hphase.
  destruct (queue r) as [|[url depth] q] eqn:Hq.
  { left. split; [done|]. by left. }
  destruct (Z.of_nat (size (visited_urls (self r))) <? max_pages (self r)) eqn:Hp;
    simpl.
  2:{ left. split; [done|]. right. by apply Z.ltb_ge. }
  apply Z.ltb_lt in Hp.
  right. exists url, depth, q. split; [done|]. split; [done|].
  destruct (bool_decide (url ∈ visited_urls (self r))) eqn:Hv.
  { left. split; [|done]. by apply bool_decide_eq_true in Hv. }
  apply bool_decide_eq_false in Hv. right.
  destruct (download_page w (self r) url depth) as [[doc|] c1] eqn:Hd.
  2:{ left. split; [done|]. by exists c1. }
  right. split; [done|]. exists doc, c1. split; [done|].
  pose proof (extract_text_crawl_state c1 doc url) as Ht.
  pose proof (extract_text_text_files c1 doc url) as Hsize.
  destruct (extract_text c1 doc url) as [[doc' text] c2|c2] eqn:Het;
    simpl in Ht, Hsize.
  2:{ exists []. simpl. split; [by left|]. split; [constructor|].
      rewrite app_nil_r. split; [done|]. split; [done|]. split; [done|].
      split; [done|]. split; [done|]. split; [done|]. by left. }
  pose proof (extract_images_crawl_state c2 doc' url) as [Hi Hif].
  destruct (extract_images c2 doc' url) as [img_count c3|c3]; simpl in Hi, Hif.
  2:{ exists []. simpl. split; [by left|]. split; [constructor|].
      rewrite app_nil_r. split; [by rewrite Hi, Ht|]. split; [done|].
      split; [done|]. split; [done|]. split; [done|].
      split; [by rewrite Hif|]. by right. }
  assert (crawl_state c3 = crawl_state c1) as Hc by congruence.
  injection Hc as Hb Hmp Hmd Hvis Hh.
  destruct (depth <? max_depth c3) eqn:Hdepth.
  2:{ exists []. simpl. split; [by left|]. split; [constructor|].
      rewrite app_nil_r. split; [unfold crawl_state; congruence|].
      split; [done|]. split; [done|]. split; [done|]. split; [done|].
      split; [by rewrite Hif|]. by right. }
  apply Z.ltb_lt in Hdepth.
  destruct (extract_links doc' url) as [links|] eqn:Hl.
  2:{ exists []. simpl. split; [by left|]. split; [constructor|].
      rewrite app_nil_r. split; [unfold crawl_state; congruence|].
      split; [done|]. split; [done|]. split; [done|]. split; [done|].
      split; [by rewrite Hif|]. by right. }
  pose proof (enqueue_links_spec depth links c3 q) as (E1 & E2 & E3 & E4).
  destruct (fold_left (enqueue_link depth) links (c3, q)) as [c4 q4].
  simpl in *. exists (fresh_links c3 links).
  split; [right; congruence|]. split.
  { rewrite <- Hvis. apply fresh_links_Forall.
    by apply keep_links_same_origin in Hl. }
  split; [etrans; [exact E1|congruence]|]. split; [done|]. split; [done|].
  split; [done|]. split; [done|]. split; [simpl; by rewrite E3, Hif|].
  by right.
Qed.

Lemma crawl_iteration_done r :
  at_phase r ≠ Looping → crawl_iteration r = r.
Proof. unfold WebCrawler.crawl_iteration. by destruct (at_phase r). Qed.

Lemma iterate_invariant (P : run → Prop) r0 :
  P r0 → (∀ r, at_phase r = Looping → P r → P (crawl_iteration r)) →
  ∀ n, P (iterate n r0).
Proof.
  intros H0 Hstep n. revert r0 H0.
  induction n as [|n IH]; intros r0 H0; simpl; [done|].
  apply IH. destruct (at_phase r0) eqn:Hphase.
  - by apply Hstep.
  - rewrite crawl_iteration_done; [done|congruence].
  - rewrite crawl_iteration_done; [done|congruence].
Qed.

Lemma enqueue_events_Forall (P : event → Prop) depth new :
  Forall (fun link => P (Enqueue link (depth + 1))) new →
  Forall P (enqueue_events depth new).
Proof.
  intros H. unfold enqueue_events. apply Forall_rev.
  by apply Forall_map.
Qed.

Lemma enqueue_events_is_enqueue depth new :
  Forall is_enqueue (enqueue_events depth new).
Proof. apply enqueue_events_Forall. by apply Forall_forall. Qed.

(** The cases of one pass, with the crawler that [download_page] leaves. *)
Ltac pass_cases r Hphase :=
  let Hd' := fresh "Hd'" in
  destruct (iteration_cases r Hphase) as
    [[Hnext Hexit]
    |(url & depth & q & Hq & Hp &
      [[Hv Hnext]
      |[(Hv & c1 & Hd & Hnext)
       |(Hv & doc & c1 & Hd & new & Hnew & Hlinks & Hstate & Hqueue
         & Hnot_returned & Hpages & Herrors & Hfiles & Htexts)]])];
  [ | |
    destruct (download_page_cases (self r) url depth) as
      [[Hd' Hguard]
      |(_ & _ & Hdepth & [[Hget Hd']|[[Hget Hd']|(doc' & Hget & Hd')]])];
    rewrite Hd' in Hd; simplify_eq
  | destruct (download_page_cases (self r) url depth) as
      [[Hd' Hguard]
      |(_ & _ & Hdepth & [[Hget Hd']|[[Hget Hd']|(doc' & Hget & Hd')]])];
    rewrite Hd' in Hd; simplify_eq ].

(** *** The depth bound *)

Lemma depth_invariant c0 n :
  let r := iterate n (crawl_start c0) in
  max_depth (self r) = max_depth c0
  ∧ (Forall (depth_bounded (max_depth c0)) (history c0) →
     Forall (depth_bounded (max_depth c0)) (history (self r))
     ∧ Forall (fun p => p.2 <= Z.max 0 (max_depth c0)) (queue r)).
Proof.
  simpl. cut (let r := iterate n (crawl_start c0) in
              max_depth (self r) = max_depth c0
              ∧ (Forall (depth_bounded (max_depth c0)) (history c0) →
                 Forall (depth_bounded (max_depth c0)) (history (self r))
                 ∧ Forall (fun p => p.2 <= Z.max 0 (max_depth c0)) (queue r)));
    [done|].
  apply (iterate_invariant
           (fun r => max_depth (self r) = max_depth c0
                     ∧ (Forall (depth_bounded (max_depth c0)) (history c0) →
                        Forall (depth_bounded (max_depth c0)) (history (self r))
                        ∧ Forall (fun p => p.2 <= Z.max 0 (max_depth c0))
                                 (queue r)))).
  { split; [done|]. intros H0. split; [done|]. simpl.
    constructor; [simpl; lia|constructor]. }
  intros r Hphase [Hmd IH].
  pass_cases r Hphase.
  - rewrite Hnext. simpl. done.
  - rewrite Hnext. simpl. split; [done|]. intros H0.
    destruct (IH H0) as [IH1 IH2]. split; [done|].
    rewrite Hq in IH2. by inversion IH2.
  - (* refused *)
    rewrite Hnext. simpl. split; [done|]. intros H0.
    destruct (IH H0) as [IH1 IH2]. rewrite Hq in IH2. inversion IH2; subst.
    split; [|done]. constructor; [|done]. simpl. done.
  - (* failed *)
    rewrite Hnext. simpl. split; [done|]. intros H0.
    destruct (IH H0) as [IH1 IH2]. rewrite Hq in IH2. inversion IH2; subst.
    split; [|done]. constructor; [|done]. simpl. intros _. lia.
  - (* unparsed *)
    rewrite Hnext. simpl. split; [done|]. intros H0.
    destruct (IH H0) as [IH1 IH2]. rewrite Hq in IH2. inversion IH2; subst.
    split; [|done]. constructor; [|done]. simpl. intros _. lia.
  - (* parsed *)
    injection Hstate as _ _ Hmd' _ Hhist. simpl in *.
    split; [congruence|]. intros H0.
    destruct (IH H0) as [IH1 IH2]. rewrite Hq in IH2. inversion IH2; subst.
    rewrite Hhist, Hqueue. split.
    + apply Forall_app. split.
      * apply enqueue_events_Forall. destruct Hnew as [->|Hlt]; [constructor|].
        apply Forall_forall. intros link _. simpl. lia.
      * constructor; [|done]. simpl. intros _. lia.
    + apply Forall_app. split; [done|].
      apply Forall_map. destruct Hnew as [->|Hlt]; [constructor|].
      apply Forall_forall. intros link _. simpl. lia.
Qed.

(** *** The origin filter *)

Lemma origin_invariant c0 n :
  let r := iterate n (crawl_start c0) in
  Forall (enqueued_same_origin netloc (base_url c0)) (history c0) →
  Forall (enqueued_same_origin netloc (base_url c0)) (history (self r))
  ∧ Forall (fun p => netloc p.1 = netloc (base_url c0)) (queue r).
Proof.
  simpl. intros H0.
  apply (iterate_invariant
           (fun r => Forall (enqueued_same_origin netloc (base_url c0))
                            (history (self r))
                     ∧ Forall (fun p => netloc p.1 = netloc (base_url c0))
                              (queue r))).
  { split; [done|]. by constructor. }
  intros r Hphase [IH1 IH2].
  pass_cases r Hphase.
  - by rewrite Hnext.
  - rewrite Hnext. simpl. split; [done|]. rewrite Hq in IH2. by inversion IH2.
  - rewrite Hnext. simpl. rewrite Hq in IH2. inversion IH2; subst.
    split; [|done]. by constructor.
  - rewrite Hnext. simpl. rewrite Hq in IH2. inversion IH2; subst.
    split; [|done]. by constructor.
  - rewrite Hnext. simpl. rewrite Hq in IH2. inversion IH2; subst.
    split; [|done]. by constructor.
  - injection Hstate as _ _ _ _ Hhist. simpl in *.
    rewrite Hq in IH2. inversion IH2 as [|? ? Hurl IH2']; subst. simpl in Hurl.
    assert (Forall (same_origin_link netloc (base_url c0)) new) as Hseed.
    { eapply Forall_impl; [exact Hlinks|]. intros link [[Hs Hn] _].
      split; [done|]. congruence. }
    rewrite Hhist, Hqueue. split.
    + apply Forall_app. split.
      * by apply enqueue_events_Forall.
      * by constructor.
    + apply Forall_app. split; [done|]. apply Forall_map.
      eapply Forall_impl; [exact Hseed|]. by intros link [_ Hn].
Qed.

(** *** The statistics *)

Lemma failed_downloads_enqueues es h :
  Forall is_enqueue es → failed_downloads (es ++ h) = failed_downloads h.
Proof. induction 1 as [|[] es He _ IH]; simpl; done. Qed.

Lemma parsed_downloads_enqueues es h :
  Forall is_enqueue es → parsed_downloads (es ++ h) = parsed_downloads h.
Proof. induction 1 as [|[] es He _ IH]; simpl; done. Qed.

Lemma downloads_enqueues es h :
  Forall is_enqueue es → downloads (es ++ h) = downloads h.
Proof. induction 1 as [|[] es He _ IH]; simpl; done. Qed.

Lemma accepted_urls_enqueues es h :
  Forall is_enqueue es → accepted_urls (es ++ h) = accepted_urls h.
Proof. induction 1 as [|[] es He _ IH]; simpl; done. Qed.

Lemma accepted_once_enqueues es h :
  Forall is_enqueue es → accepted_once (es ++ h) ↔ accepted_once h.
Proof. induction 1 as [|[] es He _ IH]; simpl; done. Qed.

Lemma stats_invariant_holds c0 n :
  stats_invariant c0 (iterate n (crawl_start c0)).
Proof.
  apply (iterate_invariant (stats_invariant c0)).
  { unfold stats_invariant. simpl. repeat split; first [lia|by left]. }
  intros r Hphase (IHe & IHp & IHt & IHs).
  destruct IHs as [IHs|[? _]]; [|congruence].
  unfold stats_invariant.
  pass_cases r Hphase.
  - rewrite Hnext. simpl. auto.
  - rewrite Hnext. simpl. auto.
  - rewrite Hnext. simpl. repeat split; first [lia|by left].
  - rewrite Hnext. simpl. repeat split; first [lia|by left].
  - rewrite Hnext. simpl. repeat split; first [lia|by left].
  - injection Hstate as _ _ _ _ Hhist. simpl in *.
    pose proof (enqueue_events_is_enqueue depth new) as Henq.
    rewrite Hhist, failed_downloads_enqueues, parsed_downloads_enqueues by done.
    simpl. rewrite Hpages, Herrors.
    destruct Htexts as [[Hesc Htx]|Htx].
    + rewrite Htx. simpl.
      split; [lia|]. split; [lia|]. split; [lia|]. right. split; [done|lia].
    + rewrite Htx. simpl.
      split; [lia|]. split; [lia|]. split; [lia|]. left. lia.
Qed.

(** *** The visited set *)

Lemma size_visited_add (url : string) (visited : gset string) :
  url ∉ visited → size ({[url]} ∪ visited) = S (size visited).
Proof.
  intros Hv. rewrite size_union; [by rewrite size_singleton|].
  by apply disjoint_singleton_l.
Qed.

Lemma visited_invariant_holds seed pages limit secs n :
  visited_invariant pages
    (iterate n (crawl_start (init seed pages limit secs))).
Proof.
  apply (iterate_invariant (visited_invariant pages)).
  { unfold visited_invariant. simpl. split; [done|]. split; [done|].
    split; [constructor|]. split; [done|].
    change (Z.of_nat (size (∅ : gset string)) <= Z.max 0 pages).
    rewrite size_empty. lia. }
  intros r Hphase (IHm & IHv & IHn & IHo & IHs). unfold visited_invariant.
  assert (∀ u, u ∉ visited_urls (self r) →
               u ∉ accepted_urls (history (self r))) as Hnot.
  { intros u Hu Hin. apply Hu. rewrite IHv. by apply elem_of_list_to_set. }
  pass_cases r Hphase.
  - by rewrite Hnext.
  - by rewrite Hnext.
  - rewrite Hnext. simpl. repeat split; done.
  - rewrite Hnext. simpl. repeat split; try done. intros _. by apply Hnot.
  - rewrite Hnext. simpl. rewrite size_visited_add by done.
    split; [done|]. split; [by rewrite IHv|]. split; [constructor; auto|].
    split; [split; [intros _; by apply Hnot|done]|]. lia.
  - injection Hstate as _ Hmp _ Hvis Hhist. simpl in *.
    pose proof (enqueue_events_is_enqueue depth new) as Henq.
    rewrite Hmp, Hvis, Hhist, accepted_urls_enqueues by done.
    rewrite size_visited_add by done. simpl.
    split; [done|]. split; [by rewrite IHv|]. split; [constructor; auto|].
    split; [|lia]. apply accepted_once_enqueues; [done|]. simpl.
    split; [intros _; by apply Hnot|done].
Qed.

(** *** Termination *)

Lemma iterate_S n r : iterate (S n) r = iterate n (crawl_iteration r).
Proof. done. Qed.

Lemma iterate_done n r : at_phase r ≠ Looping → iterate n r = r.
Proof.
  intros Hr. induction n as [|n IH]; [done|].
  rewrite iterate_S, crawl_iteration_done; done.
Qed.

Lemma iterate_add n k r : iterate (n + k) r = iterate k (iterate n r).
Proof. revert r. induction n as [|n IH]; intros r; simpl; [done|]. apply IH. Qed.

(** The pages still allowed, then the length of the queue: every pass
    that does not end the loop lowers the pair. *)
Lemma loop_ends_within (a b : nat) r :
  (Z.to_nat (max_pages (self r) - Z.of_nat (size (visited_urls (self r)))) <= a)%nat →
  (length (queue r) <= b)%nat →
  ∃ n, at_phase (iterate n r) ≠ Looping.
Proof.
  revert b r. induction a as [a IHa] using lt_wf_ind.
  induction b as [b IHb] using lt_wf_ind. intros r Ha Hb.
  destruct (at_phase r) eqn:Hphase; [|exists O; simpl; congruence..].
  assert (∀ r', crawl_iteration r = r' →
                (∃ n, at_phase (iterate n r') ≠ Looping) →
                ∃ n, at_phase (iterate n r) ≠ Looping) as Hnext'.
  { intros r' <- [n Hn]. by exists (S n). }
  pass_cases r Hphase.
  - exists 1%nat. simpl. by rewrite Hnext.
  - apply (Hnext' _ Hnext). rewrite Hq in Hb. simpl in Hb.
    apply (IHb (length q)); simpl; lia.
  - apply (Hnext' _ Hnext). rewrite Hq in Hb. simpl in Hb.
    apply (IHb (length q)); simpl; lia.
  - apply (Hnext' _ Hnext). rewrite Hq in Hb. simpl in Hb.
    apply (IHb (length q)); simpl; lia.
  - apply (Hnext' _ Hnext). rewrite Hq in Hb. simpl in Hb.
    apply (IHb (length q)); simpl; [lia| |lia].
    rewrite size_visited_add by done. lia.
  - apply (Hnext' _ eq_refl).
    injection Hstate as _ Hmp _ Hvis _. simpl in *.
    apply (IHa (Z.to_nat (max_pages (self r)
                          - Z.of_nat (S (size (visited_urls (self r)))))))
      with (b := length (queue (crawl_iteration r))); [lia| |done].
    rewrite Hmp, Hvis, size_visited_add by done. lia.
Qed.

Lemma loop_ends r : ∃ n, at_phase (iterate n r) ≠ Looping.
Proof. by eapply loop_ends_within. Qed.

Lemma visited_grows r :
  visited_urls (self r) ⊆ visited_urls (self (crawl_iteration r)).
Proof.
  destruct (at_phase r) eqn:Hphase;
    [|rewrite crawl_iteration_done; [done|congruence]..].
  pass_cases r Hphase.
  - by rewrite Hnext.
  - by rewrite Hnext.
  - by rewrite Hnext.
  - by rewrite Hnext.
  - rewrite Hnext. simpl. apply union_subseteq_r.
  - injection Hstate as _ _ _ Hvis _. rewrite Hvis. simpl.
    apply union_subseteq_r.
Qed.

Lemma iterate_S_r n r : iterate (S n) r = crawl_iteration (iterate n r).
Proof. revert r. induction n as [|n IH]; intros r; [done|]. apply IH. Qed.

(** ** The properties of the specification *)

(** C1, as the code has it: the URL of a dequeued pair that passes the
    duplicate check joins the visited set inside [download_page], after the
    request has come back with an accepted status.  When the guard refuses
    the pair or the request fails, the visited set is left as it was and
    the URL is not in it after the pass. *)
Theorem visited_marked_after_accepted_request r url depth q :
  at_phase r = Looping →
  queue r = (url, depth) :: q →
  Z.of_nat (size (visited_urls (self r))) < max_pages (self r) →
  url ∉ visited_urls (self r) →
  let r' := crawl_iteration r in
  (max_depth (self r) < depth →
   visited_urls (self r') = visited_urls (self r)
   ∧ history (self r') = Download url depth Refused :: history (self r))
  ∧ (depth <= max_depth (self r) →
     page_get w (clock (self r)) url = FetchRaises →
     visited_urls (self r') = visited_urls (self r)
     ∧ (url ∉ visited_urls (self r'))
     ∧ history (self r') = Download url depth Failed :: history (self r))
  ∧ (depth <= max_depth (self r) →
     page_get w (clock (self r)) url ≠ FetchRaises →
     visited_urls (self r') = {[url]} ∪ visited_urls (self r)).
Proof.
  intros Hphase Hqueue0 Hpages0 Hfresh. simpl.
  rename url into url0, depth into depth0, q into q0.
  pass_cases r Hphase;
    try (rewrite Hqueue0 in Hq; injection Hq as <- <- <-).
  - destruct Hexit as [Hempty|Hfull]; [congruence|lia].
  - done.
  - rewrite Hnext. simpl. destruct Hguard as [?|[?|?]]; try done; try lia.
    split; [done|]. split; intros; lia.
  - rewrite Hnext. simpl. split; [intros; lia|]. split; [done|]. congruence.
  - rewrite Hnext. simpl. split; [intros; lia|]. split; [congruence|]. done.
  - injection Hstate as _ _ _ Hvis _. rewrite Hvis. simpl.
    split; [intros; lia|]. split; [congruence|]. done.
Qed.

(** C2, as the code has it: at every point of every run, the URLs whose
    page request was accepted are pairwise distinct, they are the visited
    set, and their number never exceeds [max_pages] (zero when [max_pages]
    is negative); requests that fail are not counted. *)
Theorem accepted_pages_bounded seed pages limit secs n :
  let c := self (iterate n (crawl_start (init seed pages limit secs))) in
  NoDup (accepted_urls (history c))
  ∧ visited_urls c = list_to_set (accepted_urls (history c))
  ∧ Z.of_nat (length (accepted_urls (history c))) <= Z.max 0 pages
  ∧ Z.of_nat (size (visited_urls c)) <= Z.max 0 pages.
Proof.
  simpl.
  destruct (visited_invariant_holds seed pages limit secs n)
    as (_ & Hv & Hn & _ & Hs).
  split; [done|]. split; [done|]. split; [|done].
  rewrite Hv, size_list_to_set in Hs; done.
Qed.


(** C4: at every point of every run, every page request was sent for a
    pair of depth at most [max_depth], no pair was put on the queue from a
    page of depth [max_depth] or more, and the pairs on the queue have
    depth at most [max_depth] (the seed has depth zero). *)
Theorem depth_bound seed pages limit secs n :
  let r := iterate n (crawl_start (init seed pages limit secs)) in
  Forall (depth_bounded limit) (history (self r))
  ∧ Forall (fun p => p.2 <= Z.max 0 limit) (queue r).
Proof.
  simpl.
  destruct (depth_invariant (init seed pages limit secs) n) as [_ H].
  apply H. constructor.
Qed.

(** C6: at every point of every run, every pair on the queue has the
    authority of the seed, hence its host (and whatever else is read off
    the authority), every link put on the queue was an HTTP or HTTPS URL
    with that authority, and the error count is the number of calls of
    [download_page] that returned nothing: a dropped link adds no error. *)
Theorem origin_filter seed pages limit secs n (host_of : string → string) :
  let r := iterate n (crawl_start (init seed pages limit secs)) in
  Forall (fun p => netloc p.1 = netloc seed
                   ∧ host_of (netloc p.1) = host_of (netloc seed)) (queue r)
  ∧ Forall (enqueued_same_origin netloc seed) (history (self r))
  ∧ errors (stats r) = failed_downloads (history (self r)).
Proof.
  simpl.
  destruct (origin_invariant (init seed pages limit secs) n) as [Hh Hq];
    [constructor|].
  destruct (stats_invariant_holds (init seed pages limit secs) n)
    as (He & _).
  simpl in *. split; [|split; [done|lia]].
  eapply Forall_impl; [exact Hq|]. intros p Hp. split; [done|]. by rewrite Hp.
Qed.


(** C8, as the code has it: [extract_text] leaves the visited set, the
    history, the image hashes and the image directory as they are, but it
    removes the script and style tags from the document it is given, and it
    writes the text file itself: when the block of line 143 runs to its
    end, the text directory holds, under the name made of the hash of the
    URL and the time, the header followed by the returned text.  When
    [open] raises the directory is as it was, and when a later step of the
    block raises the file is left with what had been written of it; either
    way the exception leaves the method. *)
Theorem extract_text_effects c doc url :
  let o := extract_text c doc url in
  let timestamp := now w (clock c) in
  let name := get_url_hash md5_hexdigest url +:+ "_" +:+ pretty timestamp
              +:+ ".txt" in
  crawl_state (after o) = crawl_state c
  ∧ image_state (after o) = image_state c
  ∧ match o with
    | Return (doc', text) c' =>
        file_write w (S (clock c)) = Written
        ∧ doc' = flat_map (extract_tags ["script"; "style"]) doc
        ∧ text = page_text doc
        ∧ text_files c'
          = <[name := text_header strftime url timestamp +:+ text]>
              (text_files c)
    | Raise c' =>
        (file_write w (S (clock c)) = OpenRaises
         ∧ text_files c' = text_files c)
        ∨ ∃ kept,
            file_write w (S (clock c)) = WriteRaises kept
            ∧ text_files c'
              = <[name := substring 0 kept
                            (text_header strftime url timestamp
                             +:+ page_text doc)]> (text_files c)
    end.
Proof.
  cbv zeta. split; [apply extract_text_crawl_state|].
  split; [apply extract_text_image_state|].
  unfold WebCrawler.extract_text. simpl.
  destruct (file_write w (S (clock c))) as [|kept|]; simpl.
  - by left.
  - right. by exists kept.
  - done.
Qed.

(** C9, as the code has it: [crawl] ends for every world and every
    setting: some amount of fuel gives its result, and more fuel gives the
    same; the visited set only grows; [max_pages] bounds the dequeued
    pairs whose request is accepted; and every pass that does not end the
    loop takes the first pair off the queue and appends only links with
    the authority of the seed that are not in the visited set, none at all
    when the pass leaves the visited set as it was. *)
Theorem crawl_terminates seed pages limit secs :
  let c := init seed pages limit secs in
  (∃ fuel out, ∀ k, crawl (fuel + k) c = Some out)
  ∧ (∀ n, visited_urls (self (iterate n (crawl_start c)))
          ⊆ visited_urls (self (iterate (S n) (crawl_start c))))
  ∧ (∀ n, Z.of_nat (length (accepted_urls
                              (history (self (iterate n (crawl_start c))))))
          <= Z.max 0 pages)
  ∧ (∀ n, let r := iterate n (crawl_start c) in
          let r' := iterate (S n) (crawl_start c) in
          at_phase r = Looping → at_phase r' ≠ Returned →
          ∃ url depth q new,
            queue r = (url, depth) :: q
            ∧ queue r' = q ++ map (fun link => (link, depth + 1)) new
            ∧ Forall (fun link => same_origin_link netloc seed link
                                  ∧ link ∉ visited_urls (self r')) new
            ∧ (visited_urls (self r') = visited_urls (self r) → new = [])).
Proof.
  cbv zeta. split; [|split; [|split]].
  - destruct (loop_ends (crawl_start (init seed pages limit secs)))
      as [fuel Hend].
    exists fuel.
    destruct (crawl fuel (init seed pages limit secs)) as [out|] eqn:Hout.
    2:{ unfold WebCrawler.crawl in Hout. by destruct (at_phase _). }
    exists out. intros k. rewrite <- Hout. unfold WebCrawler.crawl.
    by rewrite iterate_add, iterate_done.
  - intros n. rewrite iterate_S_r. apply visited_grows.
  - intros n.
    destruct (visited_invariant_holds seed pages limit secs n)
      as (_ & Hv & Hn & _ & Hs).
    rewrite Hv, size_list_to_set in Hs; done.
  - intros n. rewrite iterate_S_r.
    destruct (origin_invariant (init seed pages limit secs) n)
      as [_ Hseed]; [constructor|].
    set (r := iterate n (crawl_start (init seed pages limit secs))) in *.
    intros Hphase Hnot.
    pass_cases r Hphase.
    + rewrite Hnext in Hnot. done.
    + exists url, depth, q, []. rewrite Hnext. simpl.
      by rewrite app_nil_r.
    + exists url, depth, q, []. rewrite Hnext. simpl.
      by rewrite app_nil_r.
    + exists url, depth, q, []. rewrite Hnext. simpl.
      by rewrite app_nil_r.
    + exists url, depth, q, []. rewrite Hnext. simpl.
      by rewrite app_nil_r.
    + exists url, depth, q, new. split; [done|]. split; [done|].
      injection Hstate as _ _ _ Hvis _. rewrite Hvis. simpl.
      rewrite Hq in Hseed. inversion Hseed as [|? ? Hurl _]; subst.
      simpl in Hurl. split.
      * eapply Forall_impl; [exact Hlinks|]. intros link [[Hhttp Hloc] Hnew'].
        split; [|done]. split; [done|]. by rewrite Hloc.
      * intros Hsame. exfalso. apply Hv. rewrite <- Hsame.
        by apply elem_of_union_l, elem_of_singleton.
Qed.


(** ** Further properties of the methods *)

(** *** The pool under every schedule *)

Lemma save_image_requests c img_url img_data :
  image_requests (save_image c img_url img_data).2 = image_requests c.
Proof. unfold WebCrawler.save_image. by case_match. Qed.

Lemma task_step_started c t : started (task_step c t).2 = true.
Proof.
  destruct t as [u|u d|u d|u d|b]; simpl; try done.
  - by repeat case_match.
  - by case_match.
  - by destruct (save_image c u d).
Qed.

Lemma pending_started t : started t = true → pending [t] = [].
Proof. by destruct t. Qed.

Lemma pending_cons t tasks : pending (t :: tasks) = pending [t] ++ pending tasks.
Proof. unfold pending. simpl. by rewrite app_nil_r. Qed.

Lemma pending_submitted urls : pending (map Submitted urls) = urls.
Proof.
  induction urls as [|u urls IH]; [done|].
  rewrite map_cons, pending_cons, IH. done.
Qed.

Lemma task_step_requests c t :
  requests_due ((task_step c t).1, [(task_step c t).2])
  ≡ₚ requests_due (c, [t]).
Proof.
  unfold requests_due.
  destruct t as [u|u d|u d|u d|b]; simpl; try done.
  - destruct (image_get w (clock c) u) as [|ct d]; simpl.
    + rewrite app_nil_r. apply Permutation_cons_append.
    + destruct (negb _); simpl; rewrite app_nil_r;
        apply Permutation_cons_append.
  - by case_match.
  - pose proof (save_image_requests c u d) as Hs.
    destruct (save_image c u d) as [b c']. simpl in *. by rewrite Hs.
Qed.

Lemma task_finish_requests c t :
  map fst (image_requests (task_finish c t).1)
  ≡ₚ map fst (image_requests c) ++ pending [t].
Proof.
  unfold WebCrawler.task_finish.
  pose proof (task_step_requests c t) as H1.
  destruct (task_step c t) as [c1 t1].
  pose proof (task_step_requests c1 t1) as H2.
  destruct (task_step c1 t1) as [c2 t2].
  pose proof (task_step_requests c2 t2) as H3.
  destruct (task_step c2 t2) as [c3 t3].
  pose proof (task_step_requests c3 t3) as H4.
  pose proof (task_step_started c3 t3) as Hs.
  destruct (task_step c3 t3) as [c4 t4].
  unfold requests_due in *. cbn [fst snd] in *.
  rewrite (pending_started t4 Hs), app_nil_r in H4.
  by rewrite H4, H3, H2, H1.
Qed.

Lemma pending_insert tasks i t t' :
  tasks !! i = Some t →
  ∃ rest, pending tasks ≡ₚ pending [t] ++ rest
          ∧ pending (<[i:=t']> tasks) ≡ₚ pending [t'] ++ rest.
Proof.
  revert i. induction tasks as [|t0 tasks IH]; intros i Hi; [done|].
  destruct i as [|i]; simpl in Hi.
  - injection Hi as ->. exists (pending tasks).
    change (<[0%nat:=t']> (t :: tasks)) with (t' :: tasks).
    by rewrite (pending_cons t tasks), (pending_cons t' tasks).
  - destruct (IH i Hi) as (rest & H1 & H2). exists (pending [t0] ++ rest).
    change (<[S i:=t']> (t0 :: tasks)) with (t0 :: <[i:=t']> tasks).
    rewrite (pending_cons t0 tasks), (pending_cons t0 (<[i:=t']> tasks)).
    rewrite H1, H2. split; apply Permutation_app_swap_app.
Qed.

Lemma pool_turn_requests st i :
  requests_due (pool_turn st i) ≡ₚ requests_due st.
Proof.
  destruct st as [c tasks]. unfold WebCrawler.pool_turn.
  destruct (may_run tasks i); [|done].
  destruct (tasks !! i) as [t|] eqn:Hi; [|done].
  pose proof (task_step_requests c t) as Hstep.
  destruct (task_step c t) as [c' t'].
  destruct (pending_insert tasks i t t' Hi) as (rest & H1 & H2).
  unfold requests_due in *. cbn [fst snd] in *.
  rewrite H1, H2, !app_assoc. by rewrite Hstep.
Qed.

Lemma pool_turns_requests turns st :
  requests_due (fold_left pool_turn turns st) ≡ₚ requests_due st.
Proof.
  revert st. induction turns as [|i turns IH]; intros st; [done|].
  cbn [fold_left]. by rewrite IH, pool_turn_requests.
Qed.

Lemma pool_join_requests c tasks :
  map fst (image_requests (pool_join c tasks).1) ≡ₚ requests_due (c, tasks).
Proof.
  unfold requests_due.
  revert c. induction tasks as [|t tasks IH]; intros c.
  { simpl. by rewrite app_nil_r. }
  cbn [WebCrawler.pool_join fst snd].
  pose proof (task_finish_requests c t) as Hf.
  destruct (task_finish c t) as [c1 t1].
  specialize (IH c1). destruct (pool_join c1 tasks) as [c2 tasks2].
  cbn [fst snd] in *. rewrite IH, Hf, (pending_cons t tasks).
  by rewrite app_assoc.
Qed.

(** X1: whatever the order of the pool threads, [extract_images] sends
    one request for every image URL it submitted (the resolved [src] of
    the [img] tags read before an exception of [urljoin], if any), and no
    other image request: none is lost, repeated or added. *)
Theorem extract_images_requests_each_once c doc url :
  map fst (image_requests (after (extract_images c doc url)))
  ≡ₚ (image_urls urljoin url (find_all "img" doc)).1
     ++ map fst (image_requests c).
Proof.
  unfold WebCrawler.extract_images, WebCrawler.pool_run.
  destruct (image_urls urljoin url (find_all "img" doc)) as [urls raised].
  pose proof (pool_turns_requests (schedule w (clock c))
                (tick c, map Submitted urls)) as Hturns.
  destruct (fold_left pool_turn _ _) as [c1 tasks1].
  pose proof (pool_join_requests c1 tasks1) as Hjoin.
  destruct (pool_join c1 tasks1) as [c2 tasks2].
  unfold requests_due in *. cbn [fst snd] in *.
  rewrite pending_submitted in Hturns.
  assert (map fst (image_requests c2) ≡ₚ urls ++ map fst (image_requests c))
    as Hall by (by rewrite Hjoin, Hturns, Permutation_app_comm).
  by destruct raised.
Qed.

Lemma files_hashed_mono c c' :
  image_files c' = image_files c → image_hashes c ⊆ image_hashes c' →
  files_hashed md5_hexdigest c → files_hashed md5_hexdigest c'.
Proof.
  unfold files_hashed. intros -> Hsub Hf name content Hname.
  destruct (Hf name content Hname) as (img_data & Hin & Hcontent).
  exists img_data. split; [by apply Hsub|done].
Qed.

Lemma files_hashed_state c c' :
  image_state c' = image_state c →
  files_hashed md5_hexdigest c → files_hashed md5_hexdigest c'.
Proof. intros [= Hh Hf _]. apply files_hashed_mono; [done|by rewrite Hh]. Qed.

Lemma task_hash_ok_mono c c' t :
  image_hashes c ⊆ image_hashes c' →
  task_hash_ok md5_hexdigest c t → task_hash_ok md5_hexdigest c' t.
Proof. intros Hsub. destruct t; simpl; auto. Qed.

Lemma save_image_hashed c img_url img_data :
  image_hashes (save_image c img_url img_data).2 = image_hashes c
  ∧ (md5_hexdigest img_data ∈ image_hashes c →
     files_hashed md5_hexdigest c →
     files_hashed md5_hexdigest (save_image c img_url img_data).2).
Proof.
  unfold WebCrawler.save_image, files_hashed.
  destruct (file_write w _) as [|kept|]; simpl; (split; [done|]);
    intros Hin Hf; [done|..]; apply map_Forall_insert_2; try done;
    exists img_data; (split; [done|]); [right; by exists kept|by left].
Qed.

Lemma task_step_hashed c t :
  image_hashes c ⊆ image_hashes (task_step c t).1
  ∧ (files_hashed md5_hexdigest c → task_hash_ok md5_hexdigest c t →
     files_hashed md5_hexdigest (task_step c t).1
     ∧ task_hash_ok md5_hexdigest (task_step c t).1 (task_step c t).2).
Proof.
  destruct t as [u|u d|u d|u d|b]; simpl.
  - destruct (image_get w (clock c) u) as [|ct d]; [done|].
    by destruct (negb _).
  - by destruct (bool_decide _).
  - split; [apply union_subseteq_r|]. intros Hf _. split.
    + eapply files_hashed_mono; [| |exact Hf]; [done|].
      apply union_subseteq_r.
    + by apply elem_of_union_l, elem_of_singleton.
  - destruct (save_image_hashed c u d) as [Hh Hf].
    destruct (save_image c u d) as [b c']. simpl in *.
    split; [by rewrite Hh|]. intros Hfiles Hin. split; [by apply Hf|done].
  - done.
Qed.

Lemma task_finish_hashed c t :
  image_hashes c ⊆ image_hashes (task_finish c t).1
  ∧ (files_hashed md5_hexdigest c → task_hash_ok md5_hexdigest c t →
     files_hashed md5_hexdigest (task_finish c t).1
     ∧ task_hash_ok md5_hexdigest (task_finish c t).1 (task_finish c t).2).
Proof.
  unfold WebCrawler.task_finish.
  pose proof (task_step_hashed c t) as [S1 H1].
  destruct (task_step c t) as [c1 t1].
  pose proof (task_step_hashed c1 t1) as [S2 H2].
  destruct (task_step c1 t1) as [c2 t2].
  pose proof (task_step_hashed c2 t2) as [S3 H3].
  destruct (task_step c2 t2) as [c3 t3].
  pose proof (task_step_hashed c3 t3) as [S4 H4].
  destruct (task_step c3 t3) as [c4 t4]. simpl in *.
  split; [by repeat (etrans; [eassumption|])|].
  intros Hf Ht. destruct (H1 Hf Ht) as [Hf1 Ht1].
  destruct (H2 Hf1 Ht1) as [Hf2 Ht2]. destruct (H3 Hf2 Ht2) as [Hf3 Ht3].
  by apply H4.
Qed.

Lemma pool_turn_hashed st i :
  image_hashes st.1 ⊆ image_hashes (pool_turn st i).1
  ∧ (pool_hashed md5_hexdigest st →
     pool_hashed md5_hexdigest (pool_turn st i)).
Proof.
  destruct st as [c tasks]. unfold WebCrawler.pool_turn, pool_hashed.
  destruct (may_run tasks i); [|done].
  destruct (tasks !! i) as [t|] eqn:Hi; [|done].
  pose proof (task_step_hashed c t) as [Hsub Hstep].
  destruct (task_step c t) as [c' t']. simpl in *.
  split; [done|]. intros [Hf Ht].
  destruct (Hstep Hf (Forall_lookup_1 _ _ _ _ Ht Hi)) as [Hf' Ht'].
  split; [done|]. apply Forall_insert; [|done].
  eapply Forall_impl; [exact Ht|]. intros t0. by apply task_hash_ok_mono.
Qed.

Lemma pool_turns_hashed turns st :
  image_hashes st.1 ⊆ image_hashes (fold_left pool_turn turns st).1
  ∧ (pool_hashed md5_hexdigest st →
     pool_hashed md5_hexdigest (fold_left pool_turn turns st)).
Proof.
  revert st. induction turns as [|i turns IH]; intros st; [done|].
  cbn [fold_left]. destruct (IH (pool_turn st i)) as [Hsub Hnext].
  destruct (pool_turn_hashed st i) as [Hsub1 Hturn].
  split; [by etrans|]. intros Hst. by apply Hnext, Hturn.
Qed.

Lemma pool_join_hashed c tasks :
  image_hashes c ⊆ image_hashes (pool_join c tasks).1
  ∧ (pool_hashed md5_hexdigest (c, tasks) →
     pool_hashed md5_hexdigest (pool_join c tasks)).
Proof.
  unfold pool_hashed.
  revert c. induction tasks as [|t tasks IH]; intros c; simpl; [done|].
  pose proof (task_finish_hashed c t) as [Hsub1 Hfinish].
  destruct (task_finish c t) as [c1 t1].
  destruct (IH c1) as [Hsub2 Hrest].
  destruct (pool_join c1 tasks) as [c2 tasks2]. simpl in *.
  split; [by etrans|]. intros [Hf Ht].
  inversion Ht as [|? ? Ht0 Hts]; subst.
  destruct (Hfinish Hf Ht0) as [Hf1 Ht1].
  destruct Hrest as [Hf2 Hts2].
  { split; [done|]. eapply Forall_impl; [exact Hts|]. intros t0.
    by apply task_hash_ok_mono. }
  split; [done|]. constructor; [|done]. by eapply task_hash_ok_mono.
Qed.

Lemma submitted_hash_ok c urls :
  Forall (task_hash_ok md5_hexdigest c) (map Submitted urls).
Proof. apply Forall_map. by apply Forall_forall. Qed.

Lemma extract_images_hashed c doc url :
  files_hashed md5_hexdigest c →
  files_hashed md5_hexdigest (after (extract_images c doc url)).
Proof.
  intros Hf. unfold WebCrawler.extract_images, WebCrawler.pool_run.
  destruct (image_urls urljoin url (find_all "img" doc)) as [urls raised].
  destruct (pool_turns_hashed (schedule w (clock c))
              (tick c, map Submitted urls)) as [_ Hturns].
  destruct (fold_left pool_turn _ _) as [c1 tasks1].
  destruct (pool_join_hashed c1 tasks1) as [_ Hjoin].
  destruct (pool_join c1 tasks1) as [c2 tasks2].
  assert (files_hashed md5_hexdigest c2) as Hc2.
  { apply Hjoin, Hturns. split; [done|apply submitted_hash_ok]. }
  by destruct raised.
Qed.

Lemma download_page_image_state c url depth :
  image_state (download_page w c url depth).2 = image_state c.
Proof. unfold download_page. by repeat case_match. Qed.

Lemma crawl_iteration_hashed r :
  files_hashed md5_hexdigest (self r) →
  files_hashed md5_hexdigest (self (crawl_iteration r)).
Proof.
  intros Hr. unfold WebCrawler.crawl_iteration.
  destruct (at_phase r); [|done..].
  destruct (queue r) as [|[url depth] q]; [done|].
  destruct (negb _); [done|].
  destruct (bool_decide _); [done|].
  pose proof (download_page_image_state (self r) url depth) as Hd.
  destruct (download_page w (self r) url depth) as [[doc|] c1]; simpl in Hd.
  2:{ simpl. by eapply files_hashed_state. }
  assert (files_hashed md5_hexdigest c1) as H1
      by by eapply files_hashed_state.
  pose proof (extract_text_image_state c1 doc url) as Ht.
  destruct (extract_text c1 doc url) as [[doc' text] c2|c2]; simpl in Ht.
  2:{ simpl. by eapply files_hashed_state. }
  assert (files_hashed md5_hexdigest c2) as H2
      by by eapply files_hashed_state.
  pose proof (extract_images_hashed c2 doc' url H2) as Hi.
  destruct (extract_images c2 doc' url) as [img_count c3|c3]; simpl in Hi;
    [|done].
  destruct (depth <? max_depth c3); [|done].
  destruct (extract_links doc' url) as [links|]; [|done].
  pose proof (enqueue_links_spec depth links c3 q) as (_ & _ & _ & E4).
  destruct (fold_left (enqueue_link depth) links (c3, q)) as [c4 q4].
  simpl in *. by eapply files_hashed_state.
Qed.


(** *** The order of the requests *)

Lemma ascending_app l1 l2 :
  ascending l1 → ascending l2 →
  Forall (fun a => Forall (fun b => a <= b) l2) l1 →
  ascending (l1 ++ l2).
Proof.
  induction l1 as [|a l1 IH]; simpl; [done|].
  intros [Ha Hl1] Hl2 Hcross. inversion Hcross; subst.
  split; [by apply Forall_app|]. by apply IH.
Qed.

Lemma ascending_snoc l d :
  ascending l → Forall (fun a => a <= d) l → ascending (l ++ [d]).
Proof.
  intros Hl Hd. apply ascending_app; [done|by repeat constructor|].
  eapply Forall_impl; [exact Hd|]. intros a Ha. by repeat constructor.
Qed.

Lemma ascending_const {A} (k : Z) (l : list A) :
  ascending (map (fun _ => k) l).
Proof.
  induction l as [|x l IH]; simpl; [done|]. split; [|done].
  apply Forall_map, Forall_forall. intros; simpl; lia.
Qed.

Lemma head_bound (depth : Z) (ds : list Z) :
  Forall (fun d => depth <= d ∧ d <= depth + 1) ds →
  ∀ d0, head ds = Some d0 → Forall (fun d => d <= d0 + 1) ds.
Proof.
  intros Hds d0 Hhead. destruct ds as [|d1 ds]; [done|].
  injection Hhead as ->. inversion Hds as [|? ? [Hlo _] _]; subst.
  eapply Forall_impl; [exact Hds|]. simpl. intros d [_ Hhi]. lia.
Qed.

Lemma download_depths_enqueues es h :
  Forall is_enqueue es → download_depths (es ++ h) = download_depths h.
Proof. induction 1 as [|[] es He _ IH]; simpl; done. Qed.

Lemma breadth_first_holds c0 n :
  history c0 = [] → breadth_first (iterate n (crawl_start c0)).
Proof.
  intros Hh0. apply (iterate_invariant breadth_first).
  { unfold breadth_first. simpl. rewrite Hh0. simpl.
    split; [by split|]. split; [|done].
    intros d0 [= <-]. by repeat constructor. }
  intros r Hphase (Hasc & Hspan & Hpast & Hbelow). unfold breadth_first.
  pass_cases r Hphase; try (by rewrite Hnext);
    rewrite Hq in Hasc, Hspan, Hbelow; simpl in Hasc, Hspan, Hbelow;
    destruct Hasc as [Hhead Hasc]; specialize (Hspan depth eq_refl);
    inversion Hspan as [|? ? _ Hspan']; subst;
    (assert (Forall (fun d => depth <= d ∧ d <= depth + 1) (map snd q))
       as Hlevel
       by (apply Forall_and; split; assumption));
    (assert (Forall (fun d => Forall (fun d' => d <= d') (map snd q))
                    (download_depths (history (self r)))) as Hbelow'
       by (eapply Forall_impl; [exact Hbelow|];
           intros d Hd; by inversion Hd));
    (assert (Forall (fun d => d <= depth)
                    (download_depths (history (self r)))) as Hbefore
       by (eapply Forall_impl; [exact Hbelow|];
           intros d Hd; by inversion Hd)).
  - rewrite Hnext. simpl. split; [done|].
    split; [by apply (head_bound depth)|]. done.
  - rewrite Hnext. simpl. split; [done|].
    split; [by apply (head_bound depth)|].
    split; [apply ascending_snoc; [done|by apply Forall_rev]|].
    by constructor.
  - rewrite Hnext. simpl. split; [done|].
    split; [by apply (head_bound depth)|].
    split; [apply ascending_snoc; [done|by apply Forall_rev]|].
    by constructor.
  - rewrite Hnext. simpl. split; [done|].
    split; [by apply (head_bound depth)|].
    split; [apply ascending_snoc; [done|by apply Forall_rev]|].
    by constructor.
  - injection Hstate as _ _ _ _ Hhist. simpl in Hhist.
    rewrite Hhist, Hqueue, download_depths_enqueues
      by apply enqueue_events_is_enqueue.
    rewrite map_app, map_map. simpl.
    assert (Forall (fun d => depth <= d ∧ d <= depth + 1)
                   (map snd q ++ map (fun _ : string => depth + 1) new))
      as Hlevel'.
    { apply Forall_app. split; [done|].
      apply Forall_map, Forall_forall. intros; simpl; lia. }
    split.
    { apply ascending_app; [done|apply ascending_const|].
      eapply Forall_impl; [exact Hlevel|]. simpl. intros d [_ Hd].
      apply Forall_map, Forall_forall. intros; simpl; lia. }
    split; [by apply (head_bound depth)|].
    split; [apply ascending_snoc; [done|by apply Forall_rev]|].
    constructor.
    { eapply Forall_impl; [exact Hlevel'|]. by intros e [He _]. }
    rewrite Forall_forall in Hbefore. apply Forall_forall. intros d Hd.
    eapply Forall_impl; [exact Hlevel'|]. simpl. intros e [He _].
    specialize (Hbefore d Hd). lia.
Qed.

(** X5: the loop of [crawl] is breadth first: at every point of every run
    the pairs were handed to [download_page] in order of depth (none
    before a shallower one), the queue is sorted by depth, and its pairs
    are at most one level deeper than its head. *)
Theorem crawl_is_breadth_first seed pages limit secs n :
  let r := iterate n (crawl_start (init seed pages limit secs)) in
  ascending (rev (download_depths (history (self r))))
  ∧ ascending (map snd (queue r))
  ∧ ∀ d0, head (map snd (queue r)) = Some d0 →
          Forall (fun d => d <= d0 + 1) (map snd (queue r)).
Proof.
  cbv zeta.
  destruct (breadth_first_holds (init seed pages limit secs) n eq_refl)
    as (Hasc & Hspan & Hpast & _).
  done.
Qed.

(** *** Where the requests go, and how they are counted *)

Lemma requests_origin_holds c0 n :
  history c0 = [] →
  Forall (download_same_origin netloc (base_url c0))
         (history (self (iterate n (crawl_start c0)))).
Proof.
  intros Hh0. induction n as [|n IH]; [simpl; rewrite Hh0; constructor|].
  rewrite iterate_S_r.
  destruct (origin_invariant c0 n) as [_ Hqueue0];
    [rewrite Hh0; constructor|].
  set (r := iterate n (crawl_start c0)) in *.
  destruct (at_phase r) eqn:Hphase;
    [|rewrite crawl_iteration_done; [done|congruence]..].
  pass_cases r Hphase; try (by rewrite Hnext);
    rewrite Hq in Hqueue0; inversion Hqueue0 as [|? ? Hseed _]; subst;
    simpl in Hseed.
  - rewrite Hnext. simpl. by constructor.
  - rewrite Hnext. simpl. by constructor.
  - rewrite Hnext. simpl. by constructor.
  - injection Hstate as _ _ _ _ Hhist. simpl in Hhist. rewrite Hhist.
    apply Forall_app. split; [|by constructor].
    apply enqueue_events_Forall, Forall_forall. by intros.
Qed.

Lemma downloads_split h :
  (failed_downloads h + parsed_downloads h = downloads h)%nat.
Proof.
  induction h as [|[u d []|l d] h IH]; simpl; lia.
Qed.

Lemma parsed_downloads_accepted h :
  (parsed_downloads h <= length (accepted_urls h))%nat.
Proof.
  induction h as [|[u d []|l d] h IH]; simpl; lia.
Qed.

(** X6: at every point of every run, every pair handed to [download_page]
    has the authority of the seed: no page request leaves the site. *)
Theorem requests_stay_on_seed_origin seed pages limit secs n :
  Forall (download_same_origin netloc seed)
         (history (self (iterate n (crawl_start (init seed pages limit secs))))).
Proof. by apply (requests_origin_holds (init seed pages limit secs)). Qed.

(** X7: at every point of every run, every call of [download_page] is
    counted once, as a page crawled or as an error, and [pages_crawled]
    never exceeds [max_pages] (zero when [max_pages] is negative). *)
Theorem downloads_counted_once seed pages limit secs n :
  let r := iterate n (crawl_start (init seed pages limit secs)) in
  (errors (stats r) + pages_crawled (stats r)
   = downloads (history (self r)))%nat
  ∧ Z.of_nat (pages_crawled (stats r)) <= Z.max 0 pages.
Proof.
  cbv zeta.
  destruct (stats_invariant_holds (init seed pages limit secs) n)
    as (He & Hp & _).
  destruct (visited_invariant_holds seed pages limit secs n)
    as (_ & Hv & Hn & _ & Hs).
  rewrite Hv, size_list_to_set in Hs by done.
  set (r := iterate n (crawl_start (init seed pages limit secs))) in *.
  pose proof (downloads_split (history (self r))).
  pose proof (parsed_downloads_accepted (history (self r))).
  simpl in He, Hp. split; lia.
Qed.

(** *** The edges of [crawl] *)

Lemma size_visited_init seed pages limit secs :
  Z.of_nat (size (visited_urls (init seed pages limit secs))) = 0.
Proof.
  change (visited_urls (init seed pages limit secs)) with (∅ : gset string).
  by rewrite size_empty.
Qed.

(** X8: with [max_pages] zero or negative the body of the loop never runs:
    [crawl] returns the statistics it started with, all zero, and leaves
    the crawler untouched (no request, nothing written). *)
Theorem crawl_without_page_budget seed pages limit secs k :
  pages <= 0 →
  crawl (S k) (init seed pages limit secs)
  = Some (Return (stats_with_errors 0) (init seed pages limit secs)).
Proof.
  intros Hpages. unfold WebCrawler.crawl. rewrite iterate_S.
  assert (crawl_iteration (crawl_start (init seed pages limit secs))
          = {| self := init seed pages limit secs;
               queue := [(seed, 0)];
               stats := stats_with_errors 0;
               at_phase := Returned |}) as ->.
  { unfold WebCrawler.crawl_iteration, crawl_start.
    cbn [at_phase self queue stats].
    change (base_url (init seed pages limit secs)) with seed.
    change (max_pages (init seed pages limit secs)) with pages.
    rewrite size_visited_init.
    destruct (0 <? pages) eqn:Hlt; [apply Z.ltb_lt in Hlt; lia|done]. }
  by rewrite iterate_done.
Qed.

Lemma seed_iteration seed pages limit secs :
  0 < pages →
  crawl_iteration (crawl_start (init seed pages limit secs))
  = match download_page w (init seed pages limit secs) seed 0 with
    | (None, c) =>
        {| self := c; queue := []; stats := stats_with_errors 1;
           at_phase := Looping |}
    | (Some doc, c) =>
        crawl_iteration (crawl_start (init seed pages limit secs))
    end.
Proof.
  intros Hpages.
  destruct (download_page w (init seed pages limit secs) seed 0)
    as [[doc|] c] eqn:Hd; [done|].
  unfold WebCrawler.crawl_iteration, crawl_start.
  cbn [at_phase self queue stats].
  change (base_url (init seed pages limit secs)) with seed.
  change (max_pages (init seed pages limit secs)) with pages.
  rewrite size_visited_init, Hd.
  rewrite bool_decide_eq_false_2 by apply not_elem_of_empty.
  destruct (0 <? pages) eqn:Hlt; [done|apply Z.ltb_ge in Hlt; lia].
Qed.

(** X9: with a negative [max_depth] (and a positive [max_pages]) the guard
    of [download_page] refuses the seed: no request is sent, [crawl]
    counts one error and returns. *)
Theorem crawl_with_negative_depth seed pages limit secs k :
  0 < pages → limit < 0 →
  crawl (2 + k) (init seed pages limit secs)
  = Some (Return (stats_with_errors 1)
                 (record_event (Download seed 0 Refused)
                               (init seed pages limit secs))).
Proof.
  intros Hpages Hlimit. unfold WebCrawler.crawl.
  change (2 + k)%nat with (S (S k)).
  rewrite !iterate_S, seed_iteration by done.
  assert (download_page w (init seed pages limit secs) seed 0
          = (None, record_event (Download seed 0 Refused)
                                (init seed pages limit secs))) as ->.
  { unfold WebCrawler.download_page.
    change (max_depth (init seed pages limit secs)) with limit.
    destruct (limit <? 0) eqn:Hd; [|apply Z.ltb_ge in Hd; lia].
    by rewrite !orb_true_r. }
  unfold WebCrawler.crawl_iteration. cbn [at_phase queue self stats].
  rewrite iterate_done by (cbn [at_phase]; congruence). reflexivity.
Qed.

(** X10: when the request for the seed fails (with a positive [max_pages]
    and a [max_depth] of zero or more), [crawl] counts one error, crawls
    no page, writes nothing and returns: the failure is not fatal. *)
Theorem crawl_with_unreachable_seed seed pages limit secs k :
  0 < pages → 0 <= limit →
  page_get w 0 seed = FetchRaises →
  crawl (2 + k) (init seed pages limit secs)
  = Some (Return (stats_with_errors 1)
                 (record_event (Download seed 0 Failed)
                               (tick (init seed pages limit secs)))).
Proof.
  intros Hpages Hlimit Hget. unfold WebCrawler.crawl.
  change (2 + k)%nat with (S (S k)).
  rewrite !iterate_S, seed_iteration by done.
  assert (download_page w (init seed pages limit secs) seed 0
          = (None, record_event (Download seed 0 Failed)
                                (tick (init seed pages limit secs)))) as ->.
  { unfold WebCrawler.download_page.
    change (max_depth (init seed pages limit secs)) with limit.
    change (max_pages (init seed pages limit secs)) with pages.
    change (clock (init seed pages limit secs)) with 0%nat.
    rewrite size_visited_init, Hget.
    rewrite bool_decide_eq_false_2 by apply not_elem_of_empty.
    destruct (pages <=? 0) eqn:Hle; [apply Z.leb_le in Hle; lia|].
    destruct (limit <? 0) eqn:Hd; [apply Z.ltb_lt in Hd; lia|done]. }
  unfold WebCrawler.crawl_iteration. cbn [at_phase queue self stats].
  rewrite iterate_done by (cbn [at_phase]; congruence). reflexivity.
Qed.

(** *** The document and the text of [extract_text] *)

Lemma filter_none {A} (f : A → bool) (l : list A) :
  Forall (fun x => f x = false) l → List.filter f l = [].
Proof.
  induction 1 as [|x l Hx _ IH]; [done|]. simpl. by rewrite Hx.
Qed.

Lemma extract_tags_none_named names n :
  Forall (fun m => named names m = false)
         (flat_map descendants (extract_tags names n)).
Proof.
  induction n as [s|s|s|name attrs contents IH] using node_contents_ind.
  - simpl. by repeat constructor.
  - simpl. by repeat constructor.
  - simpl. by repeat constructor.
  - cbn [extract_tags]. destruct (bool_decide (name ∈ names)) eqn:Hname;
      [constructor|].
    cbn [flat_map descendants]. rewrite app_nil_r.
    constructor; [exact Hname|].
    induction IH as [|m l Hm _ IHl]; [constructor|].
    cbn [flat_map]. rewrite flat_map_app. by apply Forall_app.
Qed.

Lemma extract_tags_idempotent names n :
  flat_map (extract_tags names) (extract_tags names n) = extract_tags names n.
Proof.
  induction n as [s|s|s|name attrs contents IH] using node_contents_ind.
  - done.
  - done.
  - done.
  - cbn [extract_tags]. destruct (bool_decide (name ∈ names)) eqn:Hname;
      [done|].
    cbn [flat_map extract_tags]. rewrite Hname, app_nil_r. do 2 f_equal.
    induction IH as [|m l Hm _ IHl]; [done|].
    cbn [flat_map]. rewrite flat_map_app. by rewrite Hm, IHl.
Qed.

Lemma pruned_none_named names (doc : soup) :
  Forall (fun m => named names m = false)
         (flat_map descendants (flat_map (extract_tags names) doc)).
Proof.
  induction doc as [|n doc IH]; [constructor|].
  cbn [flat_map]. rewrite flat_map_app. apply Forall_app.
  split; [apply extract_tags_none_named|done].
Qed.

Lemma pruned_idempotent names (doc : soup) :
  flat_map (extract_tags names) (flat_map (extract_tags names) doc)
  = flat_map (extract_tags names) doc.
Proof.
  induction doc as [|n doc IH]; [done|].
  cbn [flat_map]. rewrite flat_map_app. by rewrite extract_tags_idempotent, IH.
Qed.

Lemma find_all_pruned names name (doc : soup) :
  name ∈ names →
  find_all name (flat_map (extract_tags names) doc) = [].
Proof.
  intros Hname. unfold find_all. apply filter_none.
  eapply Forall_impl; [apply (pruned_none_named names)|].
  intros [s|s|s|name' attrs contents]; simpl; [done..|]. intros Hnot.
  apply bool_decide_eq_false_2. intros ->.
  by apply bool_decide_eq_false_1 in Hnot.
Qed.

(** X11: the document that [extract_text] leaves behind has no [script]
    and no [style] tag at any depth, and a second [extract_text] on it, by
    any crawler and for any URL, leaves it as it is and returns the same
    text. *)
Theorem extract_text_leaves_no_script c doc url doc' text c' :
  extract_text c doc url = Return (doc', text) c' →
  find_all "script" doc' = [] ∧ find_all "style" doc' = []
  ∧ ∀ c2 url2 doc2 text2 c3,
      extract_text c2 doc' url2 = Return (doc2, text2) c3 →
      doc2 = doc' ∧ text2 = text.
Proof.
  unfold WebCrawler.extract_text. intros Hret.
  destruct (file_write w _); [done|done|]. injection Hret as <- <- _.
  split; [apply find_all_pruned; repeat constructor|].
  split; [apply find_all_pruned; repeat constructor|].
  intros c2 url2 doc2 text2 c3 Hret2.
  destruct (file_write w _); [done|done|]. injection Hret2 as <- <- _.
  by rewrite pruned_idempotent.
Qed.

Lemma list_ascii_of_string_app s1 s2 :
  list_ascii_of_string (s1 +:+ s2)
  = list_ascii_of_string s1 ++ list_ascii_of_string s2.
Proof. induction s1 as [|ch s1 IH]; simpl; [done|]. by rewrite IH. Qed.

Lemma py_strip_chars s :
  py_strip s = string_of_list_ascii (strip_chars (list_ascii_of_string s)).
Proof. done. Qed.

(** Induction on a list that reaches every shorter list. *)
Lemma shorter_ind {A} (P : list A → Prop) :
  (∀ l, (∀ l', (length l' < length l)%nat → P l') → P l) → ∀ l, P l.
Proof.
  intros Hstep l. remember (length l) as n eqn:Hn.
  revert l Hn. induction n as [n IH] using lt_wf_ind. intros l ->.
  apply Hstep. intros l' Hl'. by apply (IH (length l')).
Qed.

Lemma lstrip_chars_fixed back l :
  leading_space back l = false → lstrip_chars back l = l.
Proof.
  destruct l as [|a [|b [|c l3]]]; cbn [leading_space lstrip_chars];
    try done.
  - rewrite orb_false_r. by intros ->.
  - rewrite orb_false_r. intros [-> H2]%orb_false_elim. by rewrite H2.
  - intros [-> [H2 H3]%orb_false_elim]%orb_false_elim. by rewrite H2, H3.
Qed.

Lemma lstrip_chars_suffix back l : ∃ sp, l = sp ++ lstrip_chars back l.
Proof.
  induction l as [l IH] using shorter_ind.
  destruct l as [|a l1]; [by exists []|]. cbn [lstrip_chars].
  destruct (py_isspace a).
  { destruct (IH l1) as [sp Hsp]; [simpl; lia|].
    exists (a :: sp). simpl. by rewrite <- Hsp. }
  destruct l1 as [|b l2]; [by exists []|].
  destruct (if back then py_isspace2 b a else py_isspace2 a b).
  { destruct (IH l2) as [sp Hsp]; [simpl; lia|].
    exists (a :: b :: sp). simpl. by rewrite <- Hsp. }
  destruct l2 as [|c l3]; [by exists []|].
  destruct (if back then py_isspace3 c b a else py_isspace3 a b c);
    [|by exists []].
  destruct (IH l3) as [sp Hsp]; [simpl; lia|].
  exists (a :: b :: c :: sp). simpl. by rewrite <- Hsp.
Qed.

Lemma lstrip_chars_head back l :
  leading_space back (lstrip_chars back l) = false.
Proof.
  induction l as [l IH] using shorter_ind.
  destruct l as [|a l1]; [done|]. cbn [lstrip_chars].
  destruct (py_isspace a) eqn:H1; [apply IH; simpl; lia|].
  destruct l1 as [|b l2]; [cbn [leading_space]; by rewrite H1|].
  destruct (if back then py_isspace2 b a else py_isspace2 a b) eqn:H2;
    [apply IH; simpl; lia|].
  destruct l2 as [|c l3]; [cbn [leading_space]; by rewrite H1, H2|].
  destruct (if back then py_isspace3 c b a else py_isspace3 a b c) eqn:H3;
    [apply IH; simpl; lia|].
  cbn [leading_space]. by rewrite H1, H2, H3.
Qed.

Lemma lstrip_chars_idempotent back l :
  lstrip_chars back (lstrip_chars back l) = lstrip_chars back l.
Proof. apply lstrip_chars_fixed, lstrip_chars_head. Qed.

Lemma leading_space_prefix back x y :
  leading_space back (x ++ y) = false → leading_space back x = false.
Proof.
  destruct x as [|a [|b [|c x']]]; cbn [app leading_space]; try done.
  - intros [-> _]%orb_false_elim. done.
  - destruct y as [|c y]; [done|].
    intros [-> [-> _]%orb_false_elim]%orb_false_elim. done.
Qed.

Lemma strip_chars_idempotent l : strip_chars (strip_chars l) = strip_chars l.
Proof.
  unfold strip_chars.
  destruct (lstrip_chars_suffix true (rev (lstrip_chars false l)))
    as [sp Hsp].
  assert (lstrip_chars false l
          = rev (lstrip_chars true (rev (lstrip_chars false l))) ++ rev sp)
    as Hl.
  { by rewrite <- rev_app_distr, <- Hsp, rev_involutive. }
  assert (lstrip_chars false
            (rev (lstrip_chars true (rev (lstrip_chars false l))))
          = rev (lstrip_chars true (rev (lstrip_chars false l)))) as ->.
  { apply lstrip_chars_fixed, (leading_space_prefix false _ (rev sp)).
    rewrite <- Hl. apply lstrip_chars_head. }
  by rewrite rev_involutive, lstrip_chars_idempotent.
Qed.

Lemma py_strip_idempotent s : py_strip (py_strip s) = py_strip s.
Proof.
  rewrite !py_strip_chars, list_ascii_of_string_of_list_ascii.
  by rewrite strip_chars_idempotent.
Qed.

Lemma boundary_at_prefix x y :
  boundary_at (x ++ y) = false → boundary_at x = false.
Proof.
  destruct x as [|a [|b [|c x']]]; cbn [app boundary_at]; try done.
  - intros [-> _]%orb_false_elim. done.
  - destruct y as [|c y]; [done|].
    intros [-> [-> _]%orb_false_elim]%orb_false_elim. done.
Qed.

Lemma no_boundary_cons a x l :
  no_boundary (a :: x) l = true →
  boundary_at (a :: x ++ l) = false ∧ no_boundary x l = true.
Proof.
  cbn [no_boundary app]. intros [H1 H2]%andb_true_iff.
  by apply negb_true_iff in H1.
Qed.

Lemma no_boundary_suffix sp x l :
  no_boundary (sp ++ x) l = true → no_boundary x l = true.
Proof.
  induction sp as [|a sp IH]; [done|]. intros H.
  apply no_boundary_cons in H as [_ H]. by apply IH.
Qed.

Lemma no_boundary_prefix x y l :
  no_boundary (x ++ y) l = true → no_boundary x [] = true.
Proof.
  induction x as [|a x IH]; [done|]. intros H.
  change ((a :: x) ++ y) with (a :: (x ++ y)) in H.
  apply no_boundary_cons in H as [H1 H2]. cbn [no_boundary].
  rewrite (IH H2), andb_true_r. apply negb_true_iff.
  apply (boundary_at_prefix _ (y ++ l)).
  rewrite app_nil_r. cbn [app]. by rewrite app_assoc.
Qed.

Lemma no_boundary_snoc x a l :
  no_boundary x (a :: l) = true → boundary_at (a :: l) = false →
  no_boundary (x ++ [a]) l = true.
Proof.
  intros Hx Ha. induction x as [|b x IH]; cbn [no_boundary app].
  - by rewrite Ha.
  - apply no_boundary_cons in Hx as [H1 H2].
    rewrite <- app_assoc. cbn [app]. rewrite H1. by apply IH.
Qed.

Lemma strip_chars_one_line l :
  no_boundary l [] = true → no_boundary (strip_chars l) [] = true.
Proof.
  intros Hl. unfold strip_chars.
  destruct (lstrip_chars_suffix false l) as [sp1 H1].
  destruct (lstrip_chars_suffix true (rev (lstrip_chars false l)))
    as [sp2 H2].
  rewrite H1 in Hl. apply no_boundary_suffix in Hl.
  apply (f_equal (@rev ascii)) in H2.
  rewrite rev_involutive, rev_app_distr in H2.
  rewrite H2 in Hl. by apply no_boundary_prefix in Hl.
Qed.

Lemma py_strip_one_line s : one_line s → one_line (py_strip s).
Proof.
  unfold one_line. rewrite py_strip_chars.
  rewrite list_ascii_of_string_of_list_ascii. apply strip_chars_one_line.
Qed.

Lemma one_line_rev cur l :
  no_boundary (rev cur) l = true →
  one_line (string_of_list_ascii (rev cur)).
Proof.
  intros H. unfold one_line. rewrite list_ascii_of_string_of_list_ascii.
  rewrite <- (app_nil_r (rev cur)) in H. by apply no_boundary_prefix in H.
Qed.

Lemma splitlines_go_one_line after_cr cur l :
  no_boundary (rev cur) l = true →
  Forall one_line (splitlines_go after_cr cur l).
Proof.
  revert after_cr cur. induction l as [l IH] using shorter_ind.
  intros after_cr cur Hcur.
  assert (∀ after_cr' l', (length l' < length l)%nat →
            Forall one_line (splitlines_go after_cr' [] l')) as Hnew.
  { intros after_cr' l' Hl'. by apply IH. }
  assert (∀ a l1, l = a :: l1 → boundary_at l = false →
            Forall one_line (splitlines_go false (a :: cur) l1)) as Hgo.
  { intros a l1 -> Ha. apply IH; [simpl; lia|]. cbn [rev].
    by apply no_boundary_snoc. }
  destruct l as [|a l1]; cbn [splitlines_go].
  { destruct cur as [|ch cur]; [constructor|].
    constructor; [|constructor]. by eapply one_line_rev. }
  destruct (after_cr && is_lf a); [apply Hnew; simpl; lia|].
  destruct (is_line_boundary a) eqn:H1.
  { constructor; [by eapply one_line_rev|]. apply Hnew. simpl. lia. }
  destruct l1 as [|b l2].
  { apply (Hgo a []); [done|]. cbn [boundary_at]. by rewrite H1. }
  destruct (is_line_boundary2 a b) eqn:H2.
  { constructor; [by eapply one_line_rev|]. apply Hnew. simpl. lia. }
  destruct l2 as [|c l3].
  { apply (Hgo a [b]); [done|]. cbn [boundary_at]. by rewrite H1, H2. }
  destruct (is_line_boundary3 a b c) eqn:H3.
  { constructor; [by eapply one_line_rev|]. apply Hnew. simpl. lia. }
  apply (Hgo a (b :: c :: l3)); [done|]. cbn [boundary_at].
  by rewrite H1, H2, H3.
Qed.

Lemma splitlines_go_line cur x rest :
  no_boundary x rest = true →
  splitlines_go false cur (x ++ rest) = splitlines_go false (rev x ++ cur) rest.
Proof.
  revert cur. induction x as [|a x IH]; intros cur Hx; [done|].
  apply no_boundary_cons in Hx as [Ha Hx].
  cbn [rev]. rewrite <- app_assoc. cbn [app]. rewrite <- (IH (a :: cur) Hx).
  cbn [splitlines_go andb].
  destruct (x ++ rest) as [|b [|c l3]]; cbn [boundary_at] in Ha.
  - rewrite orb_false_r in Ha. by rewrite Ha.
  - apply orb_false_elim in Ha as [-> Ha]. rewrite orb_false_r in Ha.
    by rewrite Ha.
  - apply orb_false_elim in Ha as [-> [-> ->]%orb_false_elim]. done.
Qed.

Lemma boundary_at_lf x rest :
  x ≠ [] → boundary_at x = false →
  boundary_at (x ++ ascii_of_nat 10 :: rest) = false.
Proof.
  intros Hx.
  assert (∀ a, is_line_boundary2 a (ascii_of_nat 10) = false) as Hlf2.
  { intros a. unfold is_line_boundary2. apply andb_false_r. }
  assert (∀ a c, is_line_boundary3 a (ascii_of_nat 10) c = false) as Hlf3.
  { intros a c. unfold is_line_boundary3.
    change (nat_of_ascii (ascii_of_nat 10) =? 128)%nat with false.
    by rewrite andb_false_r. }
  assert (∀ a b, is_line_boundary3 a b (ascii_of_nat 10) = false) as Hlf3'.
  { intros a b. unfold is_line_boundary3. apply andb_false_r. }
  destruct x as [|a [|b [|c x']]]; [done|..]; cbn [app boundary_at].
  - rewrite orb_false_r. intros ->. rewrite Hlf2.
    destruct rest; [done|]. by rewrite Hlf3.
  - rewrite orb_false_r. intros [-> ->]%orb_false_elim. by rewrite Hlf3'.
  - done.
Qed.

Lemma no_boundary_lf x rest :
  no_boundary x [] = true →
  no_boundary x (ascii_of_nat 10 :: rest) = true.
Proof.
  induction x as [|a x IH]; [done|]. intros H.
  apply no_boundary_cons in H as [H1 H2]. rewrite app_nil_r in H1.
  cbn [no_boundary]. rewrite (IH H2), andb_true_r. apply negb_true_iff.
  by apply (boundary_at_lf (a :: x)).
Qed.

Lemma splitlines_join lines :
  Forall (fun line => line ≠ "" ∧ one_line line) lines →
  py_splitlines (py_join LF lines) = lines.
Proof.
  unfold py_splitlines.
  induction 1 as [|p rest [Hp Hone] Hrest IH]; [done|].
  destruct rest as [|q rest].
  - cbn [py_join].
    rewrite <- (app_nil_r (list_ascii_of_string p)).
    rewrite splitlines_go_line, app_nil_r by done.
    cbn [splitlines_go].
    destruct (rev (list_ascii_of_string p)) as [|a x] eqn:Hrev.
    { destruct p; [done|]. apply (f_equal (@length ascii)) in Hrev.
      rewrite length_rev in Hrev. done. }
    by rewrite <- Hrev, rev_involutive, string_of_list_ascii_of_string.
  - change (py_join LF (p :: q :: rest))
      with (p +:+ LF +:+ py_join LF (q :: rest)).
    rewrite !list_ascii_of_string_app.
    change (list_ascii_of_string LF) with [ascii_of_nat 10]. cbn [app].
    rewrite splitlines_go_line, app_nil_r by by apply no_boundary_lf.
    cbn [splitlines_go andb].
    change (is_line_boundary (ascii_of_nat 10)) with true.
    change (is_cr (ascii_of_nat 10)) with false. cbn iota.
    by rewrite IH, rev_involutive, string_of_list_ascii_of_string.
Qed.

Lemma kept_lines text :
  let lines := List.filter (fun line => negb (bool_decide (line = "")))
                           (map py_strip (py_splitlines text)) in
  Forall kept_line lines
  ∧ Forall (fun line => line ≠ "" ∧ one_line line) lines.
Proof.
  cbv zeta. unfold py_splitlines.
  pose proof (splitlines_go_one_line false [] (list_ascii_of_string text)
                eq_refl) as Hone.
  induction Hone as [|p rest Hp _ [IH1 IH2]]; [by split|].
  cbn [map List.filter].
  destruct (bool_decide (py_strip p = "")) eqn:Hempty; [by split|].
  apply bool_decide_eq_false_1 in Hempty. cbn [negb].
  split; constructor; try done.
  - split; [done|apply py_strip_idempotent].
  - split; [done|by apply py_strip_one_line].
Qed.

(** X12: the text that [extract_text] returns and writes is in normal
    form: split into lines again, no line is empty and none has white
    space at either end, and joining these lines with line feeds gives
    the text back. *)
Theorem extract_text_lines_are_stripped c doc url doc' text c' :
  extract_text c doc url = Return (doc', text) c' →
  Forall kept_line (py_splitlines text)
  ∧ py_join LF (py_splitlines text) = text.
Proof.
  unfold WebCrawler.extract_text. intros Hret.
  destruct (file_write w _); [done|done|]. injection Hret as _ <- _.
  destruct (kept_lines (get_text LF
              (flat_map (extract_tags ["script"; "style"]) doc)))
    as [Hkept Hone].
  by rewrite splitlines_join.
Qed.

(** *** The file of a downloaded image *)


(** *** The links of a page *)

Lemma find_all_with_has_attr name key (doc : soup) :
  Forall (fun a => is_Some (attr_get key (node_attrs a)))
         (find_all_with name key doc).
Proof.
  unfold find_all_with.
  induction (find_all name doc) as [|a l IH]; [constructor|].
  simpl. destruct (bool_decide _) eqn:Ha; [|done].
  constructor; [|done]. by apply bool_decide_eq_true_1 in Ha.
Qed.

Lemma keep_links_elem base a_tags links :
  keep_links urljoin netloc base a_tags = Some links →
  ∀ link, link ∈ links ↔
    ∃ a_tag href, a_tag ∈ a_tags
      ∧ attr_get "href" (node_attrs a_tag) = Some href
      ∧ urljoin base href = Some link
      ∧ same_origin_link netloc base link.
Proof.
  revert links. induction a_tags as [|a rest IH]; intros links; simpl.
  { intros [= <-] link. split; [by intros ?%elem_of_nil|].
    by intros (? & ? & ?%elem_of_nil & _). }
  destruct (attr_get "href" (node_attrs a)) as [href|] eqn:Hhref; [|done].
  destruct (urljoin base href) as [full_url|] eqn:Hjoin; [|done].
  destruct (keep_links urljoin netloc base rest) as [links0|]; [|done].
  specialize (IH links0 eq_refl).
  destruct (_ && _) eqn:Hkeep; intros [= <-] link.
  - apply andb_true_iff in Hkeep as [Hhttp Hloc].
    apply bool_decide_eq_true_1 in Hloc.
    rewrite elem_of_cons, IH. split.
    + intros [->|(a' & href' & Ha' & ?)].
      * exists a, href. split; [by left|]. by repeat split.
      * exists a', href'. split; [by right|done].
    + intros (a' & href' & [->|Ha']%elem_of_cons & Hh & Hj & Ho).
      * left. congruence.
      * right. by exists a', href'.
  - rewrite IH. split.
    + intros (a' & href' & Ha' & ?). exists a', href'.
      split; [by right|done].
    + intros (a' & href' & [->|Ha']%elem_of_cons & Hh & Hj & [Hhttp Hloc]).
      * assert (full_url = link) as -> by congruence.
        rewrite Hhttp in Hkeep. simpl in Hkeep.
        by apply bool_decide_eq_false_1 in Hkeep.
      * by exists a', href'.
Qed.

Lemma keep_links_raises base a_tags :
  Forall (fun a => is_Some (attr_get "href" (node_attrs a))) a_tags →
  keep_links urljoin netloc base a_tags = None ↔
  ∃ a_tag href, a_tag ∈ a_tags
    ∧ attr_get "href" (node_attrs a_tag) = Some href
    ∧ urljoin base href = None.
Proof.
  induction 1 as [|a rest [href Hhref] _ IH]; simpl.
  { split; [done|]. by intros (? & ? & ?%elem_of_nil & _). }
  rewrite Hhref.
  destruct (urljoin base href) as [full_url|] eqn:Hjoin.
  - destruct (keep_links urljoin netloc base rest) as [links0|].
    + split; [by destruct (_ && _)|].
      intros (a' & href' & [->|Ha']%elem_of_cons & Hh & Hj); [congruence|].
      assert (Some links0 = None) as Hnone; [|done].
      apply IH. by exists a', href'.
    + split; [|done]. intros _.
      destruct (proj1 IH eq_refl) as (a' & href' & Ha' & ?).
      exists a', href'. split; [by right|done].
  - split; [|done]. intros _. exists a, href. split; [by left|done].
Qed.

(** X14: the links that [extract_links] returns are exactly the resolved
    [href]s of the [a] tags of the page that are HTTP or HTTPS URLs with
    the authority of the page: none is added and none is left out. *)
Theorem extract_links_keeps_exactly_same_origin doc url links :
  extract_links doc url = Some links →
  ∀ link, link ∈ links ↔
    ∃ a_tag href, a_tag ∈ find_all_with "a" "href" doc
      ∧ attr_get "href" (node_attrs a_tag) = Some href
      ∧ urljoin url href = Some link
      ∧ same_origin_link netloc url link.
Proof. apply keep_links_elem. Qed.

(** X15: [extract_links] raises only when [urljoin] raises on the [href]
    of an [a] tag of the page; the subscript of line 251 never fails,
    since [find_all] gave only tags that carry the attribute. *)
Theorem extract_links_raises_only_with_urljoin doc url :
  extract_links doc url = None ↔
  ∃ a_tag href, a_tag ∈ find_all_with "a" "href" doc
    ∧ attr_get "href" (node_attrs a_tag) = Some href
    ∧ urljoin url href = None.
Proof. apply keep_links_raises, find_all_with_has_attr. Qed.

End Properties.

(** ** The properties on the small web *)

(** C1: a dequeued URL whose request was accepted is in the visited set
    after the pass, here the seed of the flaky web. *)
Lemma visited_marked_after_accepted_request_witness :
  let r := crawl_start (init seed_url 5 3 10) in
  visited_urls (self (demo_crawl_iterate flaky_world 1 (init seed_url 5 3 10)))
  = {[seed_url]} ∪ visited_urls (self r).
Proof.
  refine (proj2 (proj2 (visited_marked_after_accepted_request
            demo_md5 demo_urljoin demo_netloc demo_path_ext demo_strftime
            flaky_world (crawl_start (init seed_url 5 3 10)) seed_url 0 []
            eq_refl eq_refl _ _)) _ _).
  - reflexivity.
  - apply not_elem_of_empty.
  - simpl. lia.
  - discriminate.
Defined.

(** C1 fails as stated: the seed is dequeued, passes the duplicate check,
    its request is sent and fails, and the seed is not in the visited set
    afterwards. *)
Lemma failed_seed_is_not_visited :
  let r := demo_crawl_iterate dead_world 1 (init seed_url 5 3 10) in
  history (self r) = [Download seed_url 0 Failed]
  ∧ seed_url ∉ visited_urls (self r).
Proof.
  split; [reflexivity|]. apply not_elem_of_empty.
Qed.

(** C2 fails as stated: with [max_pages = 2] page requests are sent for
    three distinct URLs, the second of which fails. *)
Lemma requests_exceed_max_pages :
  let r := demo_crawl_iterate flaky_world 4 (init seed_url 2 3 10) in
  at_phase r = Returned
  ∧ requested_urls (history (self r))
    = ["http://a.com/b"; "http://a.com/a"; "http://a.com/"]
  ∧ NoDup (requested_urls (history (self r)))
  ∧ max_pages (self r) < Z.of_nat (length (requested_urls (history (self r)))).
Proof.
  vm_compute.
  split; [reflexivity|]. split; [reflexivity|]. split; [|reflexivity].
  apply (bool_decide_eq_true_1 _); vm_compute; reflexivity.
Qed.


(** C5: the seed embeds two images at different URLs whose bodies are the
    same bytes, and the two pool threads take their turns alternately:
    both run the test of line 208 before either runs the insertion of line
    212, both pass it, and the same bytes are written twice, under two
    names, and counted twice, while [image_hashes] holds their hash
    once. *)
Lemma interleaved_workers_write_twice :
  let r := demo_crawl_iterate (twin_world [0; 1; 0; 1; 0; 1; 0; 1]%nat) 2
             (init seed_url 5 1 10) in
  at_phase r = Returned
  ∧ image_requests (self r)
    = [("http://a.com/i2.png", true); ("http://a.com/i1.png", true)]
  ∧ image_files (self r) !! "md5:http://a.com/i1.png_1700000000.png"
    = Some "PNG-BYTES"
  ∧ image_files (self r) !! "md5:http://a.com/i2.png_1700000000.png"
    = Some "PNG-BYTES"
  ∧ size (image_files (self r)) = 2%nat
  ∧ size (image_hashes (self r)) = 1%nat
  ∧ images_downloaded (stats r) = 2%nat.
Proof. cbv zeta. repeat split; vm_compute; reflexivity. Qed.



(** C8 fails as stated: [extract_text] writes the text file and takes the
    script tag out of the document it was given. *)
Lemma extract_text_writes_and_prunes :
  let doc := [Tag "script" [] [NavigableString "x = 1"];
              NavigableString " hi "] in
  match extract_text demo_md5 demo_strftime dead_world
          (init seed_url 5 3 10) doc seed_url with
  | Return (doc', text) c' =>
      doc' = [NavigableString " hi "] ∧ doc' ≠ doc ∧ text = "hi"
      ∧ text_files (init seed_url 5 3 10) !! "md5:http://a.com/_1700000000.txt"
        = None
      ∧ text_files c' !! "md5:http://a.com/_1700000000.txt"
        = Some (text_header demo_strftime seed_url 1700000000 +:+ "hi")
  | Raise _ => False
  end.
Proof.
  vm_compute. split; [reflexivity|]. split; [discriminate|].
  repeat split.
Qed.

(** C9 fails as stated: with [max_pages = 2] three dequeued pairs go past
    the visited check, the second to a request that fails. *)
Lemma dequeues_exceed_max_pages :
  let r := demo_crawl_iterate flaky_world 4 (init seed_url 2 3 10) in
  at_phase r = Returned
  ∧ downloads (history (self r)) = 3%nat
  ∧ max_pages (self r) = 2.
Proof. repeat split. Qed.

(** C9, on the flaky web: the first pass takes the seed off the queue and
    appends links with the authority of the seed, none of them visited. *)
Lemma crawl_terminates_witness :
  let c := init seed_url 5 3 10 in
  let r := demo_crawl_iterate flaky_world 0 c in
  let r' := demo_crawl_iterate flaky_world 1 c in
  ∃ url depth q new,
    queue r = (url, depth) :: q
    ∧ queue r' = q ++ map (fun link => (link, depth + 1)) new
    ∧ Forall (fun link => same_origin_link demo_netloc seed_url link
                          ∧ link ∉ visited_urls (self r')) new
    ∧ (visited_urls (self r') = visited_urls (self r) → new = []).
Proof.
  refine (proj2 (proj2 (proj2 (crawl_terminates
            demo_md5 demo_urljoin demo_netloc demo_path_ext demo_strftime
            flaky_world seed_url 5 3 10))) 0%nat _ _).
  - reflexivity.
  - vm_compute. discriminate.
Defined.


(** What [get_text] and [strip] leave out: comments and the doctype, and
    white space of more than one byte (here U+00A0 before and U+3000 after
    the text). *)
Example text_of_a_page :
  page_text
    [Doctype "html"; Comment " menu ";
     NavigableString
       (string_of_list_ascii (map ascii_of_nat [194; 160]%nat)
        +:+ "hi"
        +:+ string_of_list_ascii (map ascii_of_nat [227; 128; 128]%nat));
     Tag "style" [] [NavigableString "p {}"]]
  = "hi".
Proof. vm_compute. reflexivity. Qed.

(** The example of the specification for the origin filter: of the links
    to another site and to [/y], only [http://a.com/y] is queued. *)
Example origin_filter_example :
  queue (demo_crawl_iterate
           (quiet_world (fun _ _ =>
              Fetched [anchor "http://b.com/x"; anchor "/y"])) 1
           (init seed_url 5 3 10))
  = [("http://a.com/y", 1)].
Proof. reflexivity. Qed.

(** ** The further properties on the small web *)


(** X5: after the seed of the flaky web the queue holds two pairs of
    depth one, none deeper than the first by more than one. *)
Lemma crawl_is_breadth_first_witness :
  let r := demo_crawl_iterate flaky_world 1 (init seed_url 5 3 10) in
  map snd (queue r) = [1; 1]
  ∧ Forall (fun d => d <= 1 + 1) (map snd (queue r)).
Proof.
  cbv zeta. split; [vm_compute; reflexivity|].
  refine (proj2 (proj2 (crawl_is_breadth_first
            demo_md5 demo_urljoin demo_netloc demo_path_ext demo_strftime
            flaky_world seed_url 5 3 10 1)) 1 _).
  vm_compute; reflexivity.
Defined.

(** X8: with [max_pages = 0] the crawl of the flaky web returns at once. *)
Lemma crawl_without_page_budget_witness :
  demo_crawl flaky_world 1 (init seed_url 0 3 10)
  = Some (Return (stats_with_errors 0) (init seed_url 0 3 10)).
Proof.
  refine (crawl_without_page_budget
            demo_md5 demo_urljoin demo_netloc demo_path_ext demo_strftime
            flaky_world seed_url 0 3 10 0 _).
  lia.
Defined.

(** X9: with [max_depth = -1] the seed of the flaky web is refused. *)
Lemma crawl_with_negative_depth_witness :
  demo_crawl flaky_world 2 (init seed_url 5 (-1) 10)
  = Some (Return (stats_with_errors 1)
                 (record_event (Download seed_url 0 Refused)
                               (init seed_url 5 (-1) 10))).
Proof.
  refine (crawl_with_negative_depth
            demo_md5 demo_urljoin demo_netloc demo_path_ext demo_strftime
            flaky_world seed_url 5 (-1) 10 0 _ _); lia.
Defined.

(** X10: on the dead web the crawl ends with one error. *)
Lemma crawl_with_unreachable_seed_witness :
  demo_crawl dead_world 2 (init seed_url 5 3 10)
  = Some (Return (stats_with_errors 1)
                 (record_event (Download seed_url 0 Failed)
                               (tick (init seed_url 5 3 10)))).
Proof.
  refine (crawl_with_unreachable_seed
            demo_md5 demo_urljoin demo_netloc demo_path_ext demo_strftime
            dead_world seed_url 5 3 10 0 _ _ _); [lia|lia|reflexivity].
Defined.

(** X11: the seed page of the flaky web, whose [html] tag holds a script,
    has none after [extract_text]. *)
Lemma extract_text_leaves_no_script_witness :
  ∃ doc' text c',
    extract_text demo_md5 demo_strftime dead_world
                 (init seed_url 5 3 10) seed_page seed_url
    = Return (doc', text) c'
    ∧ find_all "script" seed_page ≠ []
    ∧ find_all "script" doc' = [] ∧ find_all "style" doc' = [].
Proof.
  eexists _, _, _. split; [vm_compute; reflexivity|].
  split; [discriminate|].
  refine (let H := extract_text_leaves_no_script
                     demo_md5 demo_strftime dead_world
                     (init seed_url 5 3 10) seed_page seed_url _ _ _ _ in
          conj (proj1 H) (proj1 (proj2 H))).
  vm_compute; reflexivity.
Defined.

(** X12: two lines with white space around them and an empty line between
    them come out as two stripped lines. *)
Lemma extract_text_lines_are_stripped_witness :
  let doc := [NavigableString (" a  " +:+ LF +:+ LF +:+ "  b ")] in
  ∃ doc' text c',
    extract_text demo_md5 demo_strftime dead_world
                 (init seed_url 5 3 10) doc seed_url
    = Return (doc', text) c'
    ∧ py_splitlines text = ["a"; "b"]
    ∧ Forall kept_line (py_splitlines text)
    ∧ py_join LF (py_splitlines text) = text.
Proof.
  cbv zeta. eexists _, _, _. split; [vm_compute; reflexivity|].
  split; [vm_compute; reflexivity|].
  refine (extract_text_lines_are_stripped
            demo_md5 demo_strftime dead_world (init seed_url 5 3 10)
            [NavigableString (" a  " +:+ LF +:+ LF +:+ "  b ")] seed_url
            _ _ _ _).
  vm_compute; reflexivity.
Defined.


(** X14: of the links to another site and to [/y] on the seed page, the
    link [http://a.com/y] is returned, as the resolved [href] of a tag of
    the page with the authority of the page. *)
Lemma extract_links_keeps_exactly_same_origin_witness :
  let doc := [anchor "http://b.com/x"; anchor "/y"] in
  extract_links demo_urljoin demo_netloc doc seed_url = Some ["http://a.com/y"]
  ∧ ("http://a.com/y" ∈ ["http://a.com/y"] ↔
     ∃ a_tag href, a_tag ∈ find_all_with "a" "href" doc
       ∧ attr_get "href" (node_attrs a_tag) = Some href
       ∧ demo_urljoin seed_url href = Some "http://a.com/y"
       ∧ same_origin_link demo_netloc seed_url "http://a.com/y").
Proof.
  cbv zeta. split; [vm_compute; reflexivity|].
  refine (extract_links_keeps_exactly_same_origin
            demo_urljoin demo_netloc
            [anchor "http://b.com/x"; anchor "/y"] seed_url
            ["http://a.com/y"] _ "http://a.com/y").
  vm_compute; reflexivity.
Defined.
